(** * gcp-backups: snapshot naming and the create-then-delete run

    A shallow embedding of [backup.go].  Go strings are byte strings and are
    modelled by [string] (one [ascii] per byte); Go's [int] is modelled by [Z]
    (every integer the program computes is a length, an index or a difference
    of a length and the retention limit, so for a non-negative limit no 64-bit
    operation wraps); an [error] value is an [option string] carrying its
    message, [None] being [nil]. *)

From Stdlib Require Import String Ascii List ZArith Lia Bool Permutation.
Import ListNotations.

Local Open Scope string_scope.
Local Open Scope list_scope.
Local Open Scope Z_scope.

(** ** Data model *)

Record Snapshot := mkSnapshot {
  Snapshot_Name : string;
  Snapshot_Id : string
}.

Record Disk := mkDisk {
  Name : string;
  Id : string;
  Zone : string;
  Snapshots : list Snapshot
}.

Definition Max (x y : Z) : Z := if x >? y then x else y.

(** [len] of a Go string or slice, as an [int]. *)
Definition len (s : string) : Z := Z.of_nat (String.length s).
Definition lenOf {A} (l : list A) : Z := Z.of_nat (List.length l).

(** ** The parts of the Go library the program calls *)

Module strings.

Definition hyphen : ascii := "-"%char.

(** [strings.Split(s, "-")]: the pieces between the separators; a string
    without separator, the empty one included, gives one piece. *)
Fixpoint Split (s : string) : list string :=
  match s with
  | EmptyString => [EmptyString]
  | String c rest =>
      if Ascii.eqb c hyphen then EmptyString :: Split rest
      else match Split rest with
           | p :: ps => String c p :: ps
           | [] => [String c EmptyString]
           end
  end.

(** [strings.Join(elems, sep)]. *)
Fixpoint Join (elems : list string) (sep : string) : string :=
  match elems with
  | [] => EmptyString
  | [e] => e
  | e :: rest => (e ++ sep ++ Join rest sep)%string
  end.

(** [strings.Replace(s, "--", "-", -1)]: every occurrence found by one scan
    from the left is replaced, the scan resuming after the occurrence, so
    the occurrences replaced do not overlap. *)
Fixpoint ReplaceDoubleHyphen (s : string) : string :=
  match s with
  | EmptyString => EmptyString
  | String c rest =>
      match rest with
      | String c' rest' =>
          if Ascii.eqb c hyphen && Ascii.eqb c' hyphen
          then String hyphen (ReplaceDoubleHyphen rest')
          else String c (ReplaceDoubleHyphen rest)
      | EmptyString => String c EmptyString
      end
  end.

(** Whether ["--"] occurs in [s]. *)
Fixpoint ContainsDoubleHyphen (s : string) : bool :=
  match s with
  | EmptyString => false
  | String c rest =>
      match rest with
      | String c' _ =>
          (Ascii.eqb c hyphen && Ascii.eqb c' hyphen) || ContainsDoubleHyphen rest
      | EmptyString => false
      end
  end.

End strings.

Module fmt.

Definition digit (d : Z) : ascii := ascii_of_nat (48 + Z.to_nat d).

Fixpoint digitsOf (fuel : nat) (n : Z) (acc : string) : string :=
  match fuel with
  | O => acc
  | S fuel' =>
      let acc' := String (digit (n mod 10)) acc in
      if n / 10 =? 0 then acc' else digitsOf fuel' (n / 10) acc'
  end.

(** The decimal digits of a non-negative integer. *)
Definition decimal (n : Z) : string :=
  digitsOf (S (Z.to_nat (Z.log2 n))) n EmptyString.

Fixpoint zeros (k : nat) : string :=
  match k with
  | O => EmptyString
  | S k' => String "0"%char (zeros k')
  end.

Definition padZeros (width : nat) (s : string) : string :=
  (zeros (width - String.length s) ++ s)%string.

(** The verb [%0<width>d] ([%d] for width 0): zero padding to the width, the
    sign of a negative number counting in the width. *)
Definition d0 (width : nat) (v : Z) : string :=
  if v <? 0 then String "-"%char (padZeros (width - 1) (decimal (- v)))
  else padZeros width (decimal v).

End fmt.

(** What [time.Now()] gives, as far as the program reads it. *)
Record Time := mkTime {
  Year : Z;
  Month : Z;
  Day : Z;
  Hour : Z;
  Minute : Z
}.

(** ** The name of a new snapshot (createSnapshotForDisk, lines 71-100) *)

(** [fmt.Sprintf("%04d%02d%02d%02d%02d", ...)]. *)
Definition timePart (now : Time) : string :=
  (fmt.d0 4 (Year now) ++ fmt.d0 2 (Month now) ++ fmt.d0 2 (Day now)
   ++ fmt.d0 2 (Hour now) ++ fmt.d0 2 (Minute now))%string.

Definition maxSnapshotName : Z := 55.

(** [s[i]] on a slice: [None] stands for the run-time panic of an index out
    of range. *)
Definition index {A} (s : list A) (i : Z) : option A :=
  if (0 <=? i) && (i <? lenOf s) then nth_error s (Z.to_nat i) else None.

(** [s[lo:hi]] on a slice, [None] for the panic of bounds out of range. *)
Definition slice {A} (s : list A) (lo hi : Z) : option (list A) :=
  if (0 <=? lo) && (lo <=? hi) && (hi <=? lenOf s)
  then Some (firstn (Z.to_nat (hi - lo)) (skipn (Z.to_nat lo) s))
  else None.

(** The three variables the loop of lines 82-93 updates. *)
Record Windows := mkWindows {
  startPartEnd : Z;
  endPartStart : Z;
  spaceLeft : Z
}.

Definition growStart (startPartLen : Z) (w : Windows) : Windows :=
  if spaceLeft w >? startPartLen
  then mkWindows (startPartEnd w + 1) (endPartStart w) (spaceLeft w - (startPartLen + 1))
  else w.

Definition growEnd (endPartLen : Z) (w : Windows) : Windows :=
  if spaceLeft w >? endPartLen
  then mkWindows (startPartEnd w) (endPartStart w - 1) (spaceLeft w - (endPartLen + 1))
  else w.

(** The loop [for namePartIndex := 0; namePartIndex < namesPartsLen;
    namePartIndex++]: [steps] iterations remain. *)
Fixpoint growWindows (namesParts : list string) (steps : nat)
    (namePartIndex : Z) (w : Windows) : option Windows :=
  match steps with
  | O => Some w
  | S steps' =>
      match index namesParts namePartIndex,
            index namesParts (lenOf namesParts - namePartIndex - 1) with
      | Some startPart, Some endPart =>
          growWindows namesParts steps' (namePartIndex + 1)
            (growEnd (len endPart) (growStart (len startPart) w))
      | _, _ => None
      end
  end.

(** Lines 71-100: the name given to the snapshot of a disk, [None] if an
    index or a slice bound leaves its range. *)
Definition snapshotName (diskName diskId : string) (now : Time) : option string :=
  let timePart := timePart now in
  let spaceLeft := maxSnapshotName - len timePart - len diskId in
  let namesParts := strings.Split diskName in
  let namesPartsLen := lenOf namesParts in
  match growWindows namesParts (List.length namesParts) 0
          (mkWindows 0 namesPartsLen spaceLeft) with
  | None => None
  | Some w =>
      let endPartStart :=
        if startPartEnd w >=? endPartStart w then namesPartsLen else endPartStart w in
      match slice namesParts 0 (startPartEnd w),
            slice namesParts endPartStart namesPartsLen with
      | Some startParts, Some endParts =>
          let name := (strings.Join startParts "-" ++ "-" ++ strings.Join endParts "-"
                       ++ "-" ++ diskId ++ "-" ++ timePart)%string in
          Some (strings.ReplaceDoubleHyphen name)
      | _, _ => None
      end
  end.

(** ** Effects: the log, the provider commands, and how a run ends *)

(** What a run leaves behind: the lines it logs (without the date prefix of
    the [log] package) and the commands it executes. *)
Inductive Event :=
| Log (line : string)
| Command (command : string) (args : list string).

(** How a computation ends: it returns, the process exits ([log.Fatal] is a
    print followed by [os.Exit(1)]), a run-time panic stops it, or every
    goroutine waits on a channel nobody writes to. *)
Inductive Outcome (A : Type) :=
| Ret (a : A)
| Exit (code : Z)
| Panic
| Deadlock.
Arguments Ret {A} a.
Arguments Exit {A} code.
Arguments Panic {A}.
Arguments Deadlock {A}.

Definition M (A : Type) : Type := (list Event * Outcome A)%type.

Definition events {A} (m : M A) : list Event := fst m.
Definition outcome {A} (m : M A) : Outcome A := snd m.

Definition ret {A} (a : A) : M A := ([], Ret a).

Definition bind {A B} (m : M A) (k : A -> M B) : M B :=
  match outcome m with
  | Ret a => (events m ++ events (k a), outcome (k a))
  | Exit code => (events m, Exit code)
  | Panic => (events m, Panic)
  | Deadlock => (events m, Deadlock)
  end.

Declare Scope run_scope.
Delimit Scope run_scope with run.
Notation "x <- m ;; k" := (bind m (fun x => k))
  (at level 61, m at next level, right associativity) : run_scope.
Notation "' pat <- m ;; k" := (bind m (fun x => match x with pat => k end))
  (at level 61, pat pattern, m at next level, right associativity) : run_scope.
Notation "m ;; k" := (bind m (fun _ => k))
  (at level 61, right associativity) : run_scope.
Local Open Scope run_scope.

Definition panic {A} : M A := ([], Panic).
Definition deadlock {A} : M A := ([], Deadlock).

(** [log.Printf] and [log.Println] with the line already formatted. *)
Definition log_Print (line : string) : M unit := ([Log line], Ret tt).

(** [log.Fatal]: the line is printed and the process exits with status 1. *)
Definition log_Fatal (line : string) : M unit := ([Log line], Exit 1).

(** What [%v] prints for an [error]. *)
Definition showError (err : option string) : string :=
  match err with
  | Some msg => msg
  | None => "<nil>"
  end.

(** The loop [for i := start; i < start + steps; i++] over a state. *)
Fixpoint forLoop {S} (steps : nat) (i : nat) (body : nat -> S -> M S) (s : S) : M S :=
  match steps with
  | O => ret s
  | S steps' => s' <- body i s ;; forLoop steps' (Datatypes.S i) body s'
  end.

(** [s[i] = x] on a slice, for an index in range. *)
Fixpoint setAt {A} (i : nat) (x : A) (s : list A) : list A :=
  match s, i with
  | [], _ => []
  | _ :: rest, O => x :: rest
  | y :: rest, Datatypes.S i' => y :: setAt i' x rest
  end.

(** *** Goroutines

    A goroutine is run to its end at the moment the scheduler picks it; the
    scheduler is a list of choices, the choice [c] among [k] goroutines that
    are ready picking number [c mod k] of them.  Every order in which the
    goroutines of one fan-out can write to their channel is the order of some
    list of choices ([schedule_complete] below).  The events of two
    goroutines are therefore never interleaved in the model; what is proved
    below is about which events a run has and which values its channels
    deliver, not about the order of the events of different goroutines. *)

Fixpoint takeAt {A} (k : nat) (l : list A) : option (A * list A) :=
  match l, k with
  | [], _ => None
  | x :: rest, O => Some (x, rest)
  | x :: rest, Datatypes.S k' =>
      match takeAt k' rest with
      | Some (y, rest') => Some (y, x :: rest')
      | None => None
      end
  end.

Fixpoint scheduleFrom {A} (fuel : nat) (picks : list nat) (ready : list A) : list A :=
  match fuel with
  | O => []
  | Datatypes.S fuel' =>
      match takeAt (Nat.modulo (hd O picks) (List.length ready)) ready with
      | Some (x, ready') => x :: scheduleFrom fuel' (tl picks) ready'
      | None => []
      end
  end.

Definition schedule {A} (picks : list nat) (ready : list A) : list A :=
  scheduleFrom (List.length ready) picks ready.

(** The goroutines of a fan-out, in the order of the scheduler: each either
    writes one value to the (buffered) channel or ends without writing. *)
Fixpoint runTasks {A B} (task : A -> M (option B)) (tasks : list A) (chan : list B)
    : M (list B) :=
  match tasks with
  | [] => ret chan
  | a :: rest =>
      sent <- task a ;;
      runTasks task rest (match sent with Some b => chan ++ [b] | None => chan end)
  end.

(** [<-chan] when every writer has ended. *)
Definition receive {B} (chan : list B) : M (B * list B) :=
  match chan with
  | [] => deadlock
  | b :: chan' => ret (b, chan')
  end.

(** ** The program *)

(** What a run depends on besides its flags. *)
Record World := mkWorld {
  (** [exec.Command(command, args...).CombinedOutput()]: the output and the
      error of the provider's command-line tool. *)
  CombinedOutput : string -> list string -> string * option string;
  (** [json.Unmarshal] into an empty slice, by what is in the slice
      afterwards: input that is not valid JSON is rejected before anything is
      stored ([None]: the slice is left as it was); for valid JSON the slice
      holds what could be decoded, whether or not an error is returned. *)
  decodeDisks : string -> option (list Disk);
  decodeSnapshots : string -> option (list Snapshot);
  (** [time.Now()] as read by the goroutine that creates the snapshot of the
      disk of a given index. *)
  clock : nat -> Time;
  (** The scheduler's choices: for the creations, for the clean-up of the
      disks, and for the deletions of each disk. *)
  createPicks : list nat;
  cleanPicks : list nat;
  deletePicks : nat -> list nat
}.

Section Program.

Variable world : World.

Definition json_Unmarshal {A} (decode : string -> option (list A))
    (data : string) (v : list A) : list A :=
  match decode data with
  | Some decoded => decoded
  | None => v
  end.

Definition run (command : string) (args : list string) : M (string * option string) :=
  ([Command command args], Ret (CombinedOutput world command args)).

Definition getCommandResult (command : string) (args : list string)
    : M (string * option string) :=
  '(cmdOut, cmdErr) <- run command args ;;
  match cmdErr with
  | Some err =>
      log_Print cmdOut ;;
      log_Fatal err ;;
      ret (EmptyString, Some ("Command error: `" ++ strings.Join args " " ++ "`")%string)
  | None => ret (cmdOut, None)
  end.

Definition listDisksArgs (filter : string) : list string :=
  ["beta"; "compute"; "disks"; "list"; "--filter"; filter; "--format"; "json"]%string.

Definition getDisksToSnapshot (filter : string) : M (list Disk * option string) :=
  let disks := [] in
  '(cmdListDisksOut, err) <- getCommandResult "gcloud" (listDisksArgs filter) ;;
  match err with
  | Some _ => ret (disks, err)
  | None => ret (json_Unmarshal (decodeDisks world) cmdListDisksOut disks, None)
  end.

Definition listSnapshotsArgs (disk : Disk) : list string :=
  ["beta"; "compute"; "snapshots"; "list"; "--sort-by"; "~creationTimestamp";
   "--filter"; "sourceDiskId = " ++ Id disk; "--format"; "json"]%string.

Definition getDiskSnapshots (disk : Disk) : M (list Snapshot * option string) :=
  let snapshots := [] in
  '(cmdSnapshotsOut, err) <- getCommandResult "gcloud" (listSnapshotsArgs disk) ;;
  match err with
  | Some _ => ret (snapshots, err)
  | None => ret (json_Unmarshal (decodeSnapshots world) cmdSnapshotsOut snapshots, None)
  end.

Definition createSnapshotArgs (disk : Disk) (name : string) : list string :=
  ["beta"; "compute"; "disks"; "snapshot"; Name disk; "--zone"; Zone disk;
   "--snapshot-names"; name]%string.

(** [now] is what [time.Now()] returns at line 71. *)
Definition createSnapshotForDisk (now : Time) (disk : Disk) (dryRun : bool)
    : M (Snapshot * option string) :=
  match snapshotName (Name disk) (Id disk) now with
  | None => panic
  | Some name =>
      let snapshot := mkSnapshot name EmptyString in
      if dryRun then ret (snapshot, None)
      else
        '(_, err) <- getCommandResult "gcloud" (createSnapshotArgs disk name) ;;
        ret (snapshot, err)
  end.

Definition deleteSnapshotArgs (snapshot : Snapshot) : list string :=
  ["beta"; "compute"; "snapshots"; "delete"; Snapshot_Name snapshot]%string.

Definition deleteSnapshot (snapshot : Snapshot) (dryRun : bool) : M (option string) :=
  if dryRun then ret None
  else
    '(_, err) <- getCommandResult "gcloud" (deleteSnapshotArgs snapshot) ;;
    ret err.

Definition withSnapshots (disk : Disk) (snapshots : list Snapshot) : Disk :=
  mkDisk (Name disk) (Id disk) (Zone disk) snapshots.

Fixpoint logSnapshots (snapshots : list Snapshot) : M unit :=
  match snapshots with
  | [] => ret tt
  | snapshot :: rest =>
      log_Print ("      - " ++ Snapshot_Name snapshot) ;; logSnapshots rest
  end.

(** Lines 155-166: one iteration of the loop that lists the snapshots. *)
Definition loadSnapshotsOfDisk (disksErr : option string) (diskIndex : nat)
    (disks : list Disk) : M (list Disk) :=
  match nth_error disks diskIndex with
  | None => panic
  | Some disk =>
      log_Print (fmt.d0 2 (Z.of_nat diskIndex + 1) ++ " ) " ++ Name disk) ;;
      '(snapshots, snapshotsErr) <- getDiskSnapshots disk ;;
      match snapshotsErr with
      | Some _ => log_Fatal (showError disksErr) ;; ret disks
      | None =>
          let disks := setAt diskIndex (withSnapshots disk snapshots) disks in
          logSnapshots snapshots ;;
          ret disks
      end
  end.

(** Lines 154-167: the snapshots of every disk are listed and stored in the
    disk. *)
Definition loadSnapshots (disksErr : option string) (disks : list Disk) : M (list Disk) :=
  forLoop (List.length disks) O (loadSnapshotsOfDisk disksErr) disks.

(** Lines 176-184: the goroutine of one disk; it writes the snapshot to the
    channel unless the creation failed. *)
Definition createTask (dryRun : bool) (task : nat * Disk) : M (option Snapshot) :=
  let '(diskIndex, disk) := task in
  log_Print ("Creating snapshot for disk " ++ Name disk) ;;
  '(snapshot, snapshotErr) <- createSnapshotForDisk (clock world diskIndex) disk dryRun ;;
  match snapshotErr with
  | Some err => log_Fatal err ;; ret None
  | None => ret (Some snapshot)
  end.

Fixpoint indexed {A} (i : nat) (l : list A) : list (nat * A) :=
  match l with
  | [] => []
  | x :: rest => (i, x) :: indexed (Datatypes.S i) rest
  end.

(** Lines 187-193: one iteration of the loop that reads the channel. *)
Definition attachSnapshot (diskIndex : nat) (state : list Disk * list Snapshot)
    : M (list Disk * list Snapshot) :=
  let '(disks, snapshotsCreated) := state in
  match nth_error disks diskIndex with
  | None => panic
  | Some diskBackuped =>
      '(snapshotCreated, snapshotsCreated) <- receive snapshotsCreated ;;
      let newSnapshots := snapshotCreated :: Snapshots diskBackuped in
      let disks := setAt diskIndex (withSnapshots diskBackuped newSnapshots) disks in
      log_Print ("Created snapshot " ++ Snapshot_Name snapshotCreated) ;;
      ret (disks, snapshotsCreated)
  end.

(** Lines 186-194: one snapshot is read from the channel for every disk, in
    the order of the disks, and put in front of the disk's snapshots. *)
Definition attachSnapshots (disks : list Disk) (snapshotsCreated : list Snapshot)
    : M (list Disk * list Snapshot) :=
  forLoop (List.length disks) O attachSnapshot (disks, snapshotsCreated).

(** Lines 172-196: the creation phase. *)
Definition createSnapshots (dryRun : bool) (disks : list Disk) : M (list Disk) :=
  log_Print "Creating snapshots..." ;;
  snapshotsCreated <- runTasks (createTask dryRun)
                        (schedule (createPicks world) (indexed O disks)) [] ;;
  '(disks, _) <- attachSnapshots disks snapshotsCreated ;;
  log_Print ("Created " ++ fmt.d0 0 (lenOf disks) ++ " snapshots") ;;
  log_Print "" ;;
  ret disks.

(** The arguments of the goroutines started by the loop of lines 214-223:
    [disk.Snapshots[snapshotIndex]] for [snapshotIndex] from [limit] up to
    the length, [steps] iterations remaining. *)
Fixpoint snapshotsFrom (snapshots : list Snapshot) (steps : nat) (snapshotIndex : Z)
    : option (list Snapshot) :=
  match steps with
  | O => Some []
  | Datatypes.S steps' =>
      match index snapshots snapshotIndex with
      | None => None
      | Some snapshotToDelete =>
          match snapshotsFrom snapshots steps' (snapshotIndex + 1) with
          | None => None
          | Some rest => Some (snapshotToDelete :: rest)
          end
      end
  end.

Definition snapshotsToDelete (limit : Z) (snapshots : list Snapshot)
    : option (list Snapshot) :=
  snapshotsFrom snapshots (Z.to_nat (lenOf snapshots - limit)) limit.

(** Lines 215-222: the goroutine of one snapshot to delete. *)
Definition deleteTask (dryRun : bool) (snapshotToDelete : Snapshot) : M (option Snapshot) :=
  snapshotDeleteErr <- deleteSnapshot snapshotToDelete dryRun ;;
  match snapshotDeleteErr with
  | Some err => log_Fatal err ;; ret None
  | None => ret (Some snapshotToDelete)
  end.

(** Lines 224-227: as many reads of the channel as snapshots to delete. *)
Fixpoint logDeleted (steps : nat) (snapshotsDeletedForDisk : list Snapshot) : M unit :=
  match steps with
  | O => ret tt
  | Datatypes.S steps' =>
      '(snapshotDeleted, rest) <- receive snapshotsDeletedForDisk ;;
      log_Print ("Deleted snapshot " ++ Snapshot_Name snapshotDeleted) ;;
      logDeleted steps' rest
  end.

(** Lines 204-229 for one disk: it is written to the channel as it is when
    nothing is to delete, and by its goroutine, after the deletions,
    otherwise. *)
Definition cleanTask (limit : Z) (dryRun : bool) (task : nat * Disk) : M (option Disk) :=
  let '(diskIndex, diskToClean) := task in
  let diff := lenOf (Snapshots diskToClean) - limit in
  if diff <=? 0 then ret (Some diskToClean)
  else
    let disk := diskToClean in
    let diff := lenOf (Snapshots disk) - limit in
    log_Print ("Deleting " ++ fmt.d0 0 diff ++ " old snapshot(s) for disk " ++ Name disk) ;;
    match snapshotsToDelete limit (Snapshots disk) with
    | None => panic
    | Some toDelete =>
        snapshotsDeletedForDisk <-
          runTasks (deleteTask dryRun) (schedule (deletePicks world diskIndex) toDelete) [] ;;
        logDeleted (Z.to_nat (lenOf (Snapshots disk) - limit)) snapshotsDeletedForDisk ;;
        ret (Some disk)
    end.

(** Line 233: the number of deleted snapshots reported for a disk. *)
Definition reportedDeleted (limit : Z) (diskCleaned : Disk) : Z :=
  Max 0 (lenOf (Snapshots diskCleaned) - limit).

(** Lines 231-234. *)
Fixpoint reportCleaned (limit : Z) (steps : nat) (oldSnapshotsDeleted : list Disk) : M unit :=
  match steps with
  | O => ret tt
  | Datatypes.S steps' =>
      '(diskCleaned, rest) <- receive oldSnapshotsDeleted ;;
      log_Print ("Cleaned disk " ++ Name diskCleaned ++ ": "
                 ++ fmt.d0 0 (reportedDeleted limit diskCleaned) ++ " snapshot(s) deleted") ;;
      reportCleaned limit steps' rest
  end.

(** Lines 200-236: the retention phase.  The disks reach the channel in the
    order of the scheduler, the disks with nothing to delete included. *)
Definition deleteOldSnapshots (limit : Z) (dryRun : bool) (disks : list Disk) : M unit :=
  log_Print ("Deleting old snapshots (limit: " ++ fmt.d0 0 limit ++ ")") ;;
  oldSnapshotsDeleted <- runTasks (cleanTask limit dryRun)
                           (schedule (cleanPicks world) (indexed O disks)) [] ;;
  reportCleaned limit (List.length disks) oldSnapshotsDeleted ;;
  log_Print "" ;;
  log_Print "Backup complete!".

(** The two calls of [time.Sleep] leave no event and are left out. *)
Definition main (filter : string) (limit : Z) (dryRun : bool) : M unit :=
  log_Print ("Backup of GCP disks using filter '" ++ filter ++ "'") ;;
  (if dryRun
   then log_Print "" ;;
        log_Print ("DRY RUN MODE: nothing is created or deleted " ++ filter)
   else ret tt) ;;
  log_Print "" ;;
  '(disks, disksErr) <- getDisksToSnapshot filter ;;
  match disksErr with
  | Some err => log_Fatal err
  | None =>
      if lenOf disks =? 0 then log_Print "No disk to snapshot"
      else
        log_Print "Disks and snapshots found:" ;;
        disks <- loadSnapshots disksErr disks ;;
        log_Print "" ;;
        disks <- createSnapshots dryRun disks ;;
        deleteOldSnapshots limit dryRun disks ;;
        if dryRun
        then log_Print "" ;;
             log_Print ("DRY RUN MODE: nothing has been created or deleted " ++ filter)
        else ret tt
  end.

End Program.

(** ** The goroutines, statement by statement

    From line 176 on [main] is not alone: it starts goroutines and waits for
    them on channels.  In this second embedding of lines 172-241 every
    goroutine, [main] included, is a program of single statements, and a run
    is any interleaving of the statements of the goroutines that can go on: a
    read of an empty channel waits.  The channels are buffered and never
    receive more values than their capacity ([len(disks)] or [diff]), so a
    write never waits.  The channel [snapshotsCreated] is the snapshot
    channel 0, the channel [snapshotsDeletedForDisk] made by the goroutine
    of the disk of index [i] is the snapshot channel [i + 1], and
    [oldSnapshotsDeleted] is the only channel of disks.

    The first embedding ([createSnapshots], [deleteOldSnapshots]) is the one
    in which a goroutine, once started, runs to its end before another one
    goes on. *)

Inductive Prog : Type :=
| Return
| Crash
| Print (line : string) (next : Prog)
| OsExit (code : Z) (next : Prog)
| Exec (command : string) (args : list string) (next : string * option string -> Prog)
| Go (goroutine : Prog) (next : Prog)
| SendSnapshot (channel : nat) (snapshot : Snapshot) (next : Prog)
| ReceiveSnapshot (channel : nat) (next : Snapshot -> Prog)
| SendDisk (disk : Disk) (next : Prog)
| ReceiveDisk (next : Disk -> Prog).

Record Channels := mkChannels {
  snapshotChannel : nat -> list Snapshot;
  diskChannel : list Disk
}.

Definition noValues : Channels := mkChannels (fun _ => []) [].

Definition pushSnapshot (channel : nat) (s : Snapshot) (c : Channels) : Channels :=
  mkChannels
    (fun n => if Nat.eqb n channel then snapshotChannel c n ++ [s] else snapshotChannel c n)
    (diskChannel c).

Definition popSnapshot (channel : nat) (c : Channels) : Channels :=
  mkChannels
    (fun n => if Nat.eqb n channel then tl (snapshotChannel c n) else snapshotChannel c n)
    (diskChannel c).

Definition pushDisk (d : Disk) (c : Channels) : Channels :=
  mkChannels (snapshotChannel c) (diskChannel c ++ [d]).

Definition popDisk (c : Channels) : Channels :=
  mkChannels (snapshotChannel c) (tl (diskChannel c)).

(** What the next statement of a goroutine does: it waits, the goroutine has
    ended, the process stops, or the statement is executed. *)
Inductive Progress :=
| Waits
| Ends
| Stops (evs : list Event) (how : Outcome unit)
| Goes (evs : list Event) (next : Prog) (started : list Prog) (channels : Channels).

Definition advance (world : World) (p : Prog) (c : Channels) : Progress :=
  match p with
  | Return => Ends
  | Crash => Stops [] Panic
  | Print line next => Goes [Log line] next [] c
  | OsExit code _ => Stops [] (Exit code)
  | Exec command args next =>
      Goes [Command command args] (next (CombinedOutput world command args)) [] c
  | Go goroutine next => Goes [] next [goroutine] c
  | SendSnapshot channel s next => Goes [] next [] (pushSnapshot channel s c)
  | ReceiveSnapshot channel next =>
      match snapshotChannel c channel with
      | [] => Waits
      | s :: _ => Goes [] (next s) [] (popSnapshot channel c)
      end
  | SendDisk d next => Goes [] next [] (pushDisk d c)
  | ReceiveDisk next =>
      match diskChannel c with
      | [] => Waits
      | d :: _ => Goes [] (next d) [] (popDisk c)
      end
  end.

Definition ready (world : World) (p : Prog) (c : Channels) : bool :=
  match advance world p c with
  | Waits | Ends => false
  | Stops _ _ | Goes _ _ _ _ => true
  end.

Definition isReturn (p : Prog) : bool :=
  match p with
  | Return => true
  | _ => false
  end.

(** The numbers, from [i] on, of the goroutines that can go on. *)
Fixpoint readyFrom (world : World) (i : nat) (threads : list Prog) (c : Channels)
    : list nat :=
  match threads with
  | [] => []
  | p :: rest =>
      if ready world p c then i :: readyFrom world (S i) rest c
      else readyFrom world (S i) rest c
  end.

(** The scheduler: the choice [pick] among the [k] goroutines that can go on
    is number [pick mod k] of them. *)
Definition pickThread (world : World) (pick : nat) (threads : list Prog) (c : Channels)
    : option nat :=
  match readyFrom world O threads c with
  | [] => None
  | i :: rest => Some (nth (Nat.modulo pick (List.length (i :: rest))) (i :: rest) O)
  end.

(** A run of the goroutines [threads], the first of which is [main]: at most
    [fuel] statements, chosen by [picks].  The process ends when [main]
    returns; when no goroutine can go on the Go run time stops the process
    (all goroutines are asleep).  [None] stands for a run that is not over
    after [fuel] statements. *)
Fixpoint runPool (world : World) (fuel : nat) (picks : list nat) (threads : list Prog)
    (c : Channels) : list Event * option (Outcome unit) :=
  match fuel with
  | O => ([], None)
  | S fuel' =>
      if isReturn (hd Return threads) then ([], Some (Ret tt))
      else
        match pickThread world (hd O picks) threads c with
        | None => ([], Some Deadlock)
        | Some i =>
            match advance world (nth i threads Return) c with
            | Waits | Ends => ([], Some Deadlock)
            | Stops evs how => (evs, Some how)
            | Goes evs next started c' =>
                let rest := runPool world fuel' (tl picks)
                              (setAt i next threads ++ started) c' in
                (evs ++ fst rest, snd rest)
            end
        end
  end.

Section Threads.

Variable world : World.

(** [log.Fatal]: a print followed by [os.Exit(1)]. *)
Definition log_FatalT (line : string) (next : Prog) : Prog :=
  Print line (OsExit 1 next).

Definition getCommandResultT (command : string) (args : list string)
    (next : string * option string -> Prog) : Prog :=
  Exec command args
    (fun result =>
       match snd result with
       | Some err =>
           Print (fst result)
             (log_FatalT err
                (next (EmptyString,
                       Some ("Command error: `" ++ strings.Join args " " ++ "`")%string)))
       | None => next (fst result, None)
       end).

Definition createSnapshotForDiskT (now : Time) (disk : Disk) (dryRun : bool)
    (next : Snapshot * option string -> Prog) : Prog :=
  match snapshotName (Name disk) (Id disk) now with
  | None => Crash
  | Some name =>
      let snapshot := mkSnapshot name EmptyString in
      if dryRun then next (snapshot, None)
      else
        getCommandResultT "gcloud" (createSnapshotArgs disk name)
          (fun result => next (snapshot, snd result))
  end.

Definition deleteSnapshotT (snapshot : Snapshot) (dryRun : bool)
    (next : option string -> Prog) : Prog :=
  if dryRun then next None
  else
    getCommandResultT "gcloud" (deleteSnapshotArgs snapshot)
      (fun result => next (snd result)).

(** Lines 176-184: the goroutine started for the disk of index [diskIndex]. *)
Definition createGoroutine (dryRun : bool) (diskIndex : nat) (disk : Disk) : Prog :=
  Print ("Creating snapshot for disk " ++ Name disk)
    (createSnapshotForDiskT (clock world diskIndex) disk dryRun
       (fun result =>
          match snd result with
          | Some err => log_FatalT err Return
          | None => SendSnapshot 0 (fst result) Return
          end)).

(** Lines 175-185. *)
Fixpoint spawnCreations (dryRun : bool) (steps diskIndex : nat) (disks : list Disk)
    (next : Prog) : Prog :=
  match steps with
  | O => next
  | S steps' =>
      match nth_error disks diskIndex with
      | None => Crash
      | Some disk =>
          Go (createGoroutine dryRun diskIndex disk)
            (spawnCreations dryRun steps' (S diskIndex) disks next)
      end
  end.

(** Lines 186-194. *)
Fixpoint attachSnapshotsT (steps diskIndex : nat) (disks : list Disk)
    (next : list Disk -> Prog) : Prog :=
  match steps with
  | O => next disks
  | S steps' =>
      match nth_error disks diskIndex with
      | None => Crash
      | Some diskBackuped =>
          ReceiveSnapshot 0
            (fun snapshotCreated =>
               let newSnapshots := snapshotCreated :: Snapshots diskBackuped in
               let disks :=
                 setAt diskIndex (withSnapshots diskBackuped newSnapshots) disks in
               Print ("Created snapshot " ++ Snapshot_Name snapshotCreated)
                 (attachSnapshotsT steps' (S diskIndex) disks next))
      end
  end.

(** Lines 172-196. *)
Definition createSnapshotsT (dryRun : bool) (disks : list Disk)
    (next : list Disk -> Prog) : Prog :=
  Print "Creating snapshots..."
    (spawnCreations dryRun (List.length disks) O disks
       (attachSnapshotsT (List.length disks) O disks
          (fun disks =>
             Print ("Created " ++ fmt.d0 0 (lenOf disks) ++ " snapshots")
               (Print "" (next disks))))).

(** Lines 215-222: the goroutine started for one snapshot to delete. *)
Definition deleteGoroutine (dryRun : bool) (channel : nat) (snapshotToDelete : Snapshot)
    : Prog :=
  deleteSnapshotT snapshotToDelete dryRun
    (fun snapshotDeleteErr =>
       match snapshotDeleteErr with
       | Some err => log_FatalT err Return
       | None => SendSnapshot channel snapshotToDelete Return
       end).

(** Lines 214-223. *)
Fixpoint spawnDeletions (dryRun : bool) (channel : nat) (snapshots : list Snapshot)
    (steps : nat) (snapshotIndex : Z) (next : Prog) : Prog :=
  match steps with
  | O => next
  | S steps' =>
      match index snapshots snapshotIndex with
      | None => Crash
      | Some snapshotToDelete =>
          Go (deleteGoroutine dryRun channel snapshotToDelete)
            (spawnDeletions dryRun channel snapshots steps' (snapshotIndex + 1) next)
      end
  end.

(** Lines 224-227. *)
Fixpoint logDeletedT (steps : nat) (channel : nat) (next : Prog) : Prog :=
  match steps with
  | O => next
  | S steps' =>
      ReceiveSnapshot channel
        (fun snapshotDeleted =>
           Print ("Deleted snapshot " ++ Snapshot_Name snapshotDeleted)
             (logDeletedT steps' channel next))
  end.

(** Lines 210-229: the goroutine started for a disk with snapshots beyond the
    limit. *)
Definition cleanGoroutine (limit : Z) (dryRun : bool) (diskIndex : nat) (disk : Disk)
    : Prog :=
  let diff := lenOf (Snapshots disk) - limit in
  let snapshotsDeletedForDisk := S diskIndex in
  Print ("Deleting " ++ fmt.d0 0 diff ++ " old snapshot(s) for disk " ++ Name disk)
    (spawnDeletions dryRun snapshotsDeletedForDisk (Snapshots disk)
       (Z.to_nat (lenOf (Snapshots disk) - limit)) limit
       (logDeletedT (Z.to_nat (lenOf (Snapshots disk) - limit)) snapshotsDeletedForDisk
          (SendDisk disk Return))).

(** Lines 203-230. *)
Fixpoint spawnCleanups (limit : Z) (dryRun : bool) (steps diskIndex : nat)
    (disks : list Disk) (next : Prog) : Prog :=
  match steps with
  | O => next
  | S steps' =>
      match nth_error disks diskIndex with
      | None => Crash
      | Some diskToClean =>
          let diff := lenOf (Snapshots diskToClean) - limit in
          if diff <=? 0
          then SendDisk diskToClean
                 (spawnCleanups limit dryRun steps' (S diskIndex) disks next)
          else Go (cleanGoroutine limit dryRun diskIndex diskToClean)
                 (spawnCleanups limit dryRun steps' (S diskIndex) disks next)
      end
  end.

(** Lines 231-234. *)
Fixpoint reportCleanedT (limit : Z) (steps : nat) (next : Prog) : Prog :=
  match steps with
  | O => next
  | S steps' =>
      ReceiveDisk
        (fun diskCleaned =>
           Print ("Cleaned disk " ++ Name diskCleaned ++ ": "
                  ++ fmt.d0 0 (reportedDeleted limit diskCleaned) ++ " snapshot(s) deleted")
             (reportCleanedT limit steps' next))
  end.

(** Lines 200-236. *)
Definition deleteOldSnapshotsT (limit : Z) (dryRun : bool) (disks : list Disk)
    (next : Prog) : Prog :=
  Print ("Deleting old snapshots (limit: " ++ fmt.d0 0 limit ++ ")")
    (spawnCleanups limit dryRun (List.length disks) O disks
       (reportCleanedT limit (List.length disks)
          (Print "" (Print "Backup complete!" next)))).

(** Lines 172-241: [main] from the creation phase on. *)
Definition orchestrate (filter : string) (limit : Z) (dryRun : bool) (disks : list Disk)
    : Prog :=
  createSnapshotsT dryRun disks
    (fun disks =>
       deleteOldSnapshotsT limit dryRun disks
         (if dryRun
          then Print ""
                 (Print ("DRY RUN MODE: nothing has been created or deleted " ++ filter)
                    Return)
          else Return)).

(** Lines 133-168: [main] up to the creation phase, where it is the only
    goroutine; [None] when it returns for want of disks. *)
Definition inventory (filter : string) (dryRun : bool) : M (option (list Disk)) :=
  log_Print ("Backup of GCP disks using filter '" ++ filter ++ "'") ;;
  (if dryRun
   then log_Print "" ;;
        log_Print ("DRY RUN MODE: nothing is created or deleted " ++ filter)
   else ret tt) ;;
  log_Print "" ;;
  '(disks, disksErr) <- getDisksToSnapshot world filter ;;
  match disksErr with
  | Some err => log_Fatal err ;; ret None
  | None =>
      if lenOf disks =? 0 then log_Print "No disk to snapshot" ;; ret None
      else
        log_Print "Disks and snapshots found:" ;;
        disks <- loadSnapshots world disksErr disks ;;
        log_Print "" ;;
        ret (Some disks)
  end.

(** The whole run, its goroutines interleaved by [picks]. *)
Definition mainThreads (filter : string) (limit : Z) (dryRun : bool) (fuel : nat)
    (picks : list nat) : list Event * option (Outcome unit) :=
  match outcome (inventory filter dryRun) with
  | Ret (Some disks) =>
      let rest := runPool world fuel picks [orchestrate filter limit dryRun disks] noValues in
      (events (inventory filter dryRun) ++ fst rest, snd rest)
  | Ret None => (events (inventory filter dryRun), Some (Ret tt))
  | Exit code => (events (inventory filter dryRun), Some (Exit code))
  | Panic => (events (inventory filter dryRun), Some Panic)
  | Deadlock => (events (inventory filter dryRun), Some Deadlock)
  end.

End Threads.

(** ** Sample worlds

    A provider with one disk ["db"] and the given snapshots; a listing is
    recognised by its first byte.  In [world] every command succeeds, in
    [failing] the creation of a snapshot fails, in [garbled] the disk listing
    is not JSON. *)
Module Demo.
Definition output (command : string) (args : list string) : string * option string :=
  match args with
  | _ :: _ :: "disks" :: "list" :: _ => ("D", None)
  | _ :: _ :: "snapshots" :: "list" :: _ => ("S", None)
  | _ => (EmptyString, None)
  end%string.
Definition failingOutput (command : string) (args : list string)
    : string * option string :=
  match args with
  | _ :: _ :: "disks" :: "snapshot" :: _ => ("quota exceeded", Some "exit status 1")
  | _ => output command args
  end%string.
Definition garbledOutput (command : string) (args : list string)
    : string * option string :=
  match args with
  | _ :: _ :: "disks" :: "list" :: _ => ("<html>", None)
  | _ => output command args
  end%string.
Definition disk : Disk := mkDisk "db" "42" "europe-west1-b" [].
Definition worldOf (out : string -> list string -> string * option string)
    (snapshots : list Snapshot) : World :=
  mkWorld out
    (fun data => if String.eqb data "D" then Some [disk] else None)
    (fun data => if String.eqb data "S" then Some snapshots else None)
    (fun _ => mkTime 2024 1 15 12 30) [] [] (fun _ => []).
Definition world : list Snapshot -> World := worldOf output.
Definition failing : World := worldOf failingOutput [].
Definition garbled : World := worldOf garbledOutput [].
Definition threeSnapshots : list Snapshot :=
  [mkSnapshot "db-3" "3"; mkSnapshot "db-2" "2"; mkSnapshot "db-1" "1"].
(** The world in which, of two creation goroutines, the second ends first. *)
Definition reversed : World :=
  mkWorld output
    (fun data => if String.eqb data "D" then Some [disk] else None)
    (fun data => if String.eqb data "S" then Some [] else None)
    (fun _ => mkTime 2024 1 15 12 30) [1%nat] [] (fun _ => []).
Definition otherDisk : Disk := mkDisk "cache" "77" "europe-west1-c" threeSnapshots.
(** The worlds in which the disk listing and the snapshot listing fail. *)
Definition unreachableOutput (command : string) (args : list string)
    : string * option string :=
  match args with
  | _ :: _ :: "disks" :: "list" :: _ => ("not logged in", Some "exit status 1")
  | _ => output command args
  end%string.
Definition unreachable : World := worldOf unreachableOutput [].
Definition failingListingOutput (command : string) (args : list string)
    : string * option string :=
  match args with
  | _ :: _ :: "snapshots" :: "list" :: _ => ("forbidden", Some "exit status 1")
  | _ => output command args
  end%string.
Definition failingListing : World := worldOf failingListingOutput [].
(** The world in which every command succeeds with the same output. *)
Definition accepting : World :=
  mkWorld (fun _ _ => ("[]", None)%string)
    (fun _ => Some [disk]) (fun _ => Some threeSnapshots)
    (fun _ => mkTime 2024 1 15 12 30) [] [] (fun _ => []).
(** Two disks with three snapshots each: every command succeeds in
    [twoDisks]; in [oneFailing] the creation of the snapshot of the disk
    ["cache"] fails, the other creation succeeds. *)
Definition worldOfTwo (out : string -> list string -> string * option string) : World :=
  mkWorld out
    (fun _ => Some [disk; otherDisk]) (fun _ => Some threeSnapshots)
    (fun _ => mkTime 2024 1 15 12 30) [] [] (fun _ => []).
Definition twoDisks : World := worldOfTwo (fun _ _ => ("[]", None)%string).
Definition cacheFailsOutput (command : string) (args : list string)
    : string * option string :=
  match args with
  | _ :: _ :: "disks" :: "snapshot" :: "cache" :: _ =>
      ("quota exceeded", Some "exit status 1")
  | _ => ("[]", None)
  end%string.
Definition oneFailing : World := worldOfTwo cacheFailsOutput.
End Demo.

(** ** Reading the events of a run *)

(** The argument lists of the commands executed, in order. *)
Fixpoint commands (evs : list Event) : list (list string) :=
  match evs with
  | [] => []
  | Command _ args :: rest => args :: commands rest
  | Log _ :: rest => commands rest
  end.

(** The lines logged, in order. *)
Fixpoint logLines (evs : list Event) : list string :=
  match evs with
  | [] => []
  | Log line :: rest => line :: logLines rest
  | Command _ _ :: rest => logLines rest
  end.

Fixpoint startsWith (prefix args : list string) : bool :=
  match prefix, args with
  | [], _ => true
  | p :: prefix', a :: args' => String.eqb p a && startsWith prefix' args'
  | _ :: _, [] => false
  end.

(** The two provider calls that change something: the creation and the
    deletion of a snapshot. *)
Definition isCreate (e : Event) : bool :=
  match e with
  | Command _ args => startsWith ["beta"; "compute"; "disks"; "snapshot"]%string args
  | Log _ => false
  end.

Definition isDelete (e : Event) : bool :=
  match e with
  | Command _ args => startsWith ["beta"; "compute"; "snapshots"; "delete"]%string args
  | Log _ => false
  end.

Definition isMutating (e : Event) : bool := isCreate e || isDelete e.

(** ** Vocabulary of the properties *)

(** The bytes of the strings of a list, together. *)
Fixpoint sumLen (l : list string) : nat :=
  match l with
  | [] => O
  | e :: rest => (String.length e + sumLen rest)%nat
  end.

(** The bytes of a string other than the hyphen. *)
Fixpoint countOther (s : string) : nat :=
  match s with
  | EmptyString => O
  | String c rest =>
      ((if Ascii.eqb c strings.hyphen then 0 else 1) + countOther rest)%nat
  end.

(** A disk with the snapshots that the provider lists for it. *)
Definition loaded (world : World) (disk : Disk) : Disk :=
  withSnapshots disk
    (json_Unmarshal (decodeSnapshots world)
       (fst (CombinedOutput world "gcloud" (listSnapshotsArgs disk))) []).

(** A disk with one more snapshot in front. *)
Definition attached (pair : Disk * Snapshot) : Disk :=
  withSnapshots (fst pair) (snd pair :: Snapshots (fst pair)).

(** What a computation reports: the lines it logs and how it ends. *)
Definition report {A} (m : M A) : list string * Outcome A :=
  (logLines (events m), outcome m).

(** Two computations that report the same, but for lines that the first may
    add at its end. *)
Definition closes {A} (closing : list string) (m1 m2 : M A) : Prop :=
  outcome m1 = outcome m2
  /\ exists c, logLines (events m1) = logLines (events m2) ++ c
               /\ (c = [] \/ c = closing).

(** The name synthesized for a disk at a given time. *)
Definition nameFor (now : Time) (disk : Disk) : string :=
  match snapshotName (Name disk) (Id disk) now with
  | Some name => name
  | None => EmptyString
  end.

(** The snapshot that the goroutine of a disk creates. *)
Definition createdFor (world : World) (task : nat * Disk) : Snapshot :=
  mkSnapshot (nameFor (clock world (fst task)) (snd task)) EmptyString.

(** The creation command of the goroutine of a disk. *)
Definition createCommandFor (world : World) (task : nat * Disk) : list string :=
  createSnapshotArgs (snd task) (nameFor (clock world (fst task)) (snd task)).


(** The line that reports the clean-up of a disk. *)
Definition cleanedLine (limit : Z) (diskCleaned : Disk) : string :=
  ("Cleaned disk " ++ Name diskCleaned ++ ": "
   ++ fmt.d0 0 (reportedDeleted limit diskCleaned) ++ " snapshot(s) deleted")%string.


(** The statements left to a goroutine that only prints, executes commands,
    writes to a channel and exits. *)
Fixpoint weight (world : World) (p : Prog) : nat :=
  match p with
  | Print _ next => S (weight world next)
  | Exec command args next =>
      S (weight world (next (CombinedOutput world command args)))
  | OsExit _ _ => 1
  | SendSnapshot _ _ next => S (weight world next)
  | _ => O
  end.

Fixpoint sumWeight (world : World) (threads : list Prog) : nat :=
  match threads with
  | [] => O
  | p :: rest => (weight world p + sumWeight world rest)%nat
  end.

(** The goroutines that have returned. *)
Fixpoint returned (threads : list Prog) : nat :=
  match threads with
  | [] => O
  | p :: rest => ((if isReturn p then 1 else 0) + returned rest)%nat
  end.

(** A goroutine that prints and executes commands other than deletions, and
    then either writes one snapshot to [snapshotsCreated] and returns, or
    makes the process exit with status 1. *)
Inductive Creator (world : World) : Prog -> Prop :=
| creator_print line next :
    Creator world next -> Creator world (Print line next)
| creator_exec command args next :
    isDelete (Command command args) = false ->
    Creator world (next (CombinedOutput world command args)) ->
    Creator world (Exec command args next)
| creator_exit next : Creator world (OsExit 1 next)
| creator_send s : Creator world (SendSnapshot O s Return).

(** A goroutine that makes the process exit before it writes to a channel. *)
Inductive Doomed (world : World) : Prog -> Prop :=
| doomed_print line next :
    Doomed world next -> Doomed world (Print line next)
| doomed_exec command args next :
    isDelete (Command command args) = false ->
    Doomed world (next (CombinedOutput world command args)) ->
    Doomed world (Exec command args next)
| doomed_exit next : Doomed world (OsExit 1 next).

(** Where [main] is in the creation phase of a run that is not dry: at its
    start, in the loop that starts the goroutines, before a read of the
    channel, or before the print that follows a read. *)
Inductive Phase :=
| Starting
| Spawning (diskIndex : nat)
| Attaching (diskIndex : nat) (disks : list Disk)
| Printing (diskIndex : nat) (disks : list Disk) (line : string).

Definition afterAttach (next : list Disk -> Prog) (disks : list Disk) : Prog :=
  Print ("Created " ++ fmt.d0 0 (lenOf disks) ++ " snapshots") (Print "" (next disks)).

Definition mainOf (world : World) (disks : list Disk) (next : list Disk -> Prog)
    (phase : Phase) : Prog :=
  match phase with
  | Starting => createSnapshotsT world false disks next
  | Spawning j =>
      spawnCreations world false (List.length disks - j) j disks
        (attachSnapshotsT (List.length disks) O disks (afterAttach next))
  | Attaching r ds => attachSnapshotsT (List.length disks - r) r ds (afterAttach next)
  | Printing r ds line =>
      Print line (attachSnapshotsT (List.length disks - r) r ds (afterAttach next))
  end.

Definition received (phase : Phase) : nat :=
  match phase with
  | Starting | Spawning _ => O
  | Attaching r _ | Printing r _ _ => r
  end.

(** The phase of [main] after it has started the goroutine of the disk of
    index [diskIndex]. *)
Definition nextPhase (disks : list Disk) (diskIndex : nat) : Phase :=
  if Nat.ltb (S diskIndex) (List.length disks) then Spawning (S diskIndex)
  else Attaching O disks.

Definition mainWeight (n : nat) (phase : Phase) : nat :=
  match phase with
  | Starting => 8 * n + 1
  | Spawning j => 6 * (n - j) + 2 * n
  | Attaching r _ => 2 * (n - r)
  | Printing r _ _ => 2 * (n - r) + 1
  end.

(** What holds of the goroutines and of the channel [snapshotsCreated] all
    along the creation phase when the goroutine of the disk of index [failing]
    cannot but exit. *)
Definition CreationInv (world : World) (disks : list Disk) (failing : nat)
    (phase : Phase) (others : list Prog) (c : Channels) : Prop :=
  Forall (fun p => Creator world p \/ p = Return) others
  /\ (List.length (snapshotChannel c O) + received phase <= returned others)%nat
  /\ match phase with
     | Starting => others = []
     | Spawning j =>
         List.length others = j /\ (j < List.length disks)%nat
         /\ ((failing < j)%nat -> Exists (Doomed world) others)
     | Attaching r ds | Printing r ds _ =>
         List.length others = List.length disks
         /\ List.length ds = List.length disks
         /\ Exists (Doomed world) others
     end.

(** * Properties *)

(** ** Strings and slices *)

Lemma length_append (a b : string) :
  String.length (a ++ b) = (String.length a + String.length b)%nat.
Proof.
  induction a as [|c a IH]; simpl; [reflexivity | now rewrite IH].
Qed.

Lemma Join_length (l : list string) (sep : string) :
  String.length (strings.Join l sep)
  = (sumLen l + String.length sep * pred (List.length l))%nat.
Proof.
  induction l as [|e [|e' rest] IH].
  - simpl. lia.
  - simpl. lia.
  - change (strings.Join (e :: e' :: rest) sep)
      with (e ++ sep ++ strings.Join (e' :: rest) sep)%string.
    rewrite !length_append, IH. simpl. lia.
Qed.

Lemma Split_not_nil (s : string) : strings.Split s <> [].
Proof.
  destruct s as [|c s]; simpl; [discriminate|].
  destruct (Ascii.eqb c strings.hyphen); [discriminate|].
  destruct (strings.Split s); discriminate.
Qed.

Lemma Join_Split (s : string) : strings.Join (strings.Split s) "-" = s.
Proof.
  induction s as [|c s IH]; [reflexivity|].
  simpl. destruct (Ascii.eqb c strings.hyphen) eqn:E.
  - apply Ascii.eqb_eq in E. subst c.
    destruct (strings.Split s) as [|p ps] eqn:Es.
    + now apply Split_not_nil in Es.
    + change (strings.Join (EmptyString :: p :: ps) "-")
        with (String strings.hyphen (strings.Join (p :: ps) "-")).
      now rewrite IH.
  - destruct (strings.Split s) as [|p ps] eqn:Es.
    + now apply Split_not_nil in Es.
    + rewrite <- IH. destruct ps as [|q qs]; reflexivity.
Qed.

Lemma sumLen_app (l1 l2 : list string) :
  sumLen (l1 ++ l2) = (sumLen l1 + sumLen l2)%nat.
Proof.
  induction l1 as [|e l1 IH]; simpl; lia.
Qed.

Lemma sumLen_skipn (k : nat) (l : list string) : (sumLen (skipn k l) <= sumLen l)%nat.
Proof.
  rewrite <- (firstn_skipn k l) at 2. rewrite sumLen_app. lia.
Qed.

Lemma sumLen_windows (s e : nat) (l : list string) :
  (s <= e)%nat -> (sumLen (firstn s l) + sumLen (skipn e l) <= sumLen l)%nat.
Proof.
  intros Hse.
  rewrite <- (firstn_skipn s l) at 3. rewrite sumLen_app.
  replace e with ((e - s) + s)%nat by lia.
  rewrite <- skipn_skipn.
  pose proof (sumLen_skipn (e - s) (skipn s l)). lia.
Qed.

(** The two windows kept by the synthesizer never hold more bytes than the
    disk name they are cut from. *)
Lemma Join_windows_length (s e : nat) (l : list string) :
  (s <= e)%nat ->
  (String.length (strings.Join (firstn s l) "-")
   + String.length (strings.Join (skipn e l) "-")
   <= String.length (strings.Join l "-"))%nat.
Proof.
  intros Hse. rewrite !Join_length.
  pose proof (sumLen_windows s e l Hse).
  rewrite length_firstn, length_skipn. simpl. lia.
Qed.

Lemma ReplaceDoubleHyphen_length_aux (n : nat) :
  forall s, (String.length s <= n)%nat ->
  (String.length (strings.ReplaceDoubleHyphen s) <= String.length s)%nat.
Proof.
  induction n as [|n IH]; intros s Hn.
  - destruct s; simpl in *; lia.
  - destruct s as [|c [|c' rest]]; simpl in *; try lia.
    destruct (Ascii.eqb c strings.hyphen && Ascii.eqb c' strings.hyphen).
    + specialize (IH rest). simpl. lia.
    + specialize (IH (String c' rest)). simpl in *. lia.
Qed.

Lemma ReplaceDoubleHyphen_length (s : string) :
  (String.length (strings.ReplaceDoubleHyphen s) <= String.length s)%nat.
Proof.
  now apply (ReplaceDoubleHyphen_length_aux (String.length s)).
Qed.

Lemma countOther_append (a b : string) :
  countOther (a ++ b) = (countOther a + countOther b)%nat.
Proof.
  induction a as [|c a IH]; simpl; [reflexivity | rewrite IH; lia].
Qed.

Lemma countOther_length (s : string) : (countOther s <= String.length s)%nat.
Proof.
  induction s as [|c s IH]; simpl; [lia|].
  destruct (Ascii.eqb c strings.hyphen); lia.
Qed.

Lemma ReplaceDoubleHyphen_countOther_aux (n : nat) :
  forall s, (String.length s <= n)%nat ->
  countOther (strings.ReplaceDoubleHyphen s) = countOther s.
Proof.
  induction n as [|n IH]; intros s Hn.
  - destruct s; simpl in *; [reflexivity | lia].
  - destruct s as [|c [|c' rest]]; try reflexivity.
    simpl in Hn.
    change (strings.ReplaceDoubleHyphen (String c (String c' rest)))
      with (if Ascii.eqb c strings.hyphen && Ascii.eqb c' strings.hyphen
            then String strings.hyphen (strings.ReplaceDoubleHyphen rest)
            else String c (strings.ReplaceDoubleHyphen (String c' rest))).
    destruct (Ascii.eqb c strings.hyphen) eqn:Ec;
      destruct (Ascii.eqb c' strings.hyphen) eqn:Ec'; cbn [andb].
    + cbn [countOther]. rewrite Ec, Ec'. rewrite (IH rest) by lia.
      reflexivity.
    + cbn [countOther]. rewrite Ec. f_equal.
      rewrite (IH (String c' rest)) by (simpl; lia). reflexivity.
    + cbn [countOther]. rewrite Ec. f_equal.
      rewrite (IH (String c' rest)) by (simpl; lia). reflexivity.
    + cbn [countOther]. rewrite Ec. f_equal.
      rewrite (IH (String c' rest)) by (simpl; lia). reflexivity.
Qed.

Lemma ReplaceDoubleHyphen_countOther (s : string) :
  countOther (strings.ReplaceDoubleHyphen s) = countOther s.
Proof.
  now apply (ReplaceDoubleHyphen_countOther_aux (String.length s)).
Qed.

Lemma index_in_range {A} (l : list A) (i : Z) :
  0 <= i < lenOf l -> exists x, index l i = Some x /\ nth_error l (Z.to_nat i) = Some x.
Proof.
  intros Hi. unfold index, lenOf in *.
  replace (0 <=? i) with true by (symmetry; apply Z.leb_le; lia).
  replace (i <? Z.of_nat (List.length l)) with true by (symmetry; apply Z.ltb_lt; lia).
  destruct (nth_error l (Z.to_nat i)) as [x|] eqn:E.
  - now exists x.
  - apply nth_error_None in E. lia.
Qed.

(** ** The name synthesizer *)

Lemma grow_bounds (a b : Z) (w : Windows) :
  let w' := growEnd b (growStart a w) in
  startPartEnd w <= startPartEnd w' <= startPartEnd w + 1
  /\ endPartStart w - 1 <= endPartStart w' <= endPartStart w.
Proof.
  unfold growEnd, growStart.
  destruct (spaceLeft w >? a); simpl;
    match goal with |- context [if ?c then _ else _] => destruct c end; simpl; lia.
Qed.

Lemma growWindows_total (namesParts : list string) (steps : nat) :
  forall (namePartIndex : Z) (w : Windows),
    0 <= namePartIndex ->
    namePartIndex + Z.of_nat steps = lenOf namesParts ->
    0 <= startPartEnd w <= namePartIndex ->
    lenOf namesParts - namePartIndex <= endPartStart w <= lenOf namesParts ->
    exists w', growWindows namesParts steps namePartIndex w = Some w'
               /\ 0 <= startPartEnd w' <= lenOf namesParts
               /\ 0 <= endPartStart w' <= lenOf namesParts.
Proof.
  induction steps as [|steps IH]; intros i w Hi Hn Hs He.
  - exists w. simpl. split; [reflexivity | lia].
  - cbn [growWindows].
    destruct (index_in_range namesParts i) as [a [Ea _]]; [lia|].
    destruct (index_in_range namesParts (lenOf namesParts - i - 1)) as [b [Eb _]]; [lia|].
    rewrite Ea, Eb.
    pose proof (grow_bounds (len a) (len b) w) as Hb. cbv zeta in Hb.
    apply IH; lia.
Qed.

Lemma slice_prefix {A} (l : list A) (hi : Z) :
  0 <= hi <= lenOf l -> slice l 0 hi = Some (firstn (Z.to_nat hi) l).
Proof.
  intros H. unfold slice.
  replace (0 <=? 0) with true by reflexivity.
  replace (0 <=? hi) with true by (symmetry; apply Z.leb_le; lia).
  replace (hi <=? lenOf l) with true by (symmetry; apply Z.leb_le; lia).
  simpl. now rewrite Z.sub_0_r.
Qed.

Lemma slice_suffix {A} (l : list A) (lo : Z) :
  0 <= lo <= lenOf l -> slice l lo (lenOf l) = Some (skipn (Z.to_nat lo) l).
Proof.
  intros H. unfold slice.
  replace (0 <=? lo) with true by (symmetry; apply Z.leb_le; lia).
  replace (lo <=? lenOf l) with true by (symmetry; apply Z.leb_le; lia).
  replace (lenOf l <=? lenOf l) with true by (symmetry; apply Z.leb_le; lia).
  simpl. f_equal. apply firstn_all2. rewrite length_skipn. unfold lenOf. lia.
Qed.

(** The name is always produced; it is made of two windows of the disk name
    that do not overlap, the disk identifier and the time. *)
Lemma snapshotName_shape (diskName diskId : string) (now : Time) :
  exists s e : nat,
    (s <= e)%nat
    /\ snapshotName diskName diskId now
       = Some (strings.ReplaceDoubleHyphen
                 (strings.Join (firstn s (strings.Split diskName)) "-" ++ "-"
                  ++ strings.Join (skipn e (strings.Split diskName)) "-"
                  ++ "-" ++ diskId ++ "-" ++ timePart now)%string).
Proof.
  unfold snapshotName.
  set (parts := strings.Split diskName).
  destruct (growWindows_total parts (List.length parts) 0
              (mkWindows 0 (lenOf parts)
                 (maxSnapshotName - len (timePart now) - len diskId)))
    as [w [Ew [Hs He]]];
    [lia | reflexivity | simpl; lia | simpl; unfold lenOf; lia |].
  cbv zeta. rewrite Ew.
  rewrite slice_prefix by exact Hs.
  destruct (startPartEnd w >=? endPartStart w) eqn:Ecmp.
  - rewrite slice_suffix by (unfold lenOf; lia).
    exists (Z.to_nat (startPartEnd w)), (Z.to_nat (lenOf parts)).
    split; [lia | reflexivity].
  - rewrite slice_suffix by exact He.
    exists (Z.to_nat (startPartEnd w)), (Z.to_nat (endPartStart w)).
    split; [|reflexivity].
    rewrite Z.geb_leb in Ecmp. apply Z.leb_gt in Ecmp. lia.
Qed.

Lemma snapshotName_returns (diskName diskId : string) (now : Time) :
  exists name, snapshotName diskName diskId now = Some name.
Proof.
  destruct (snapshotName_shape diskName diskId now) as [s [e [_ E]]].
  eexists. exact E.
Qed.

(** The time part has 12 bytes for every time a clock shows in the years 0 to
    9999. *)
Lemma d0_width (width : nat) (bound : Z) :
  forallb (fun k => Nat.eqb (String.length (fmt.d0 width (Z.of_nat k))) width)
          (seq 0 (Z.to_nat bound)) = true ->
  forall v, 0 <= v < bound -> String.length (fmt.d0 width v) = width.
Proof.
  intros Hall v Hv.
  rewrite forallb_forall in Hall.
  specialize (Hall (Z.to_nat v)).
  rewrite Z2Nat.id in Hall by lia.
  apply Nat.eqb_eq, Hall, in_seq. lia.
Qed.

Lemma timePart_length (now : Time) :
  0 <= Year now < 10000 -> 0 <= Month now < 100 -> 0 <= Day now < 100 ->
  0 <= Hour now < 100 -> 0 <= Minute now < 100 ->
  String.length (timePart now) = 12%nat.
Proof.
  intros Hy Hm Hd Hh Hmin. unfold timePart.
  rewrite !length_append.
  rewrite (d0_width 4 10000) by (vm_compute; reflexivity || assumption).
  rewrite !(d0_width 2 100) by (vm_compute; reflexivity || assumption).
  reflexivity.
Qed.

(** C5 (as amended): for every disk name, disk identifier and time the name
    synthesizer returns a name, no index or slice bound leaving its range.
    The name keeps every byte of the identifier and of the time part that is
    not a hyphen, so it is longer than the budget of 55 bytes as soon as the
    identifier alone is; it is never longer than the disk name, the
    identifier, the time part and the three separators together. *)
Theorem snapshotName_total (diskName diskId : string) (now : Time) :
  exists name,
    snapshotName diskName diskId now = Some name
    /\ (countOther diskId + countOther (timePart now) <= String.length name)%nat
    /\ (String.length name
        <= String.length diskName + String.length diskId
           + String.length (timePart now) + 3)%nat.
Proof.
  destruct (snapshotName_shape diskName diskId now) as [s [e [Hse E]]].
  eexists. split; [exact E|]. split.
  - etransitivity; [|apply countOther_length].
    rewrite ReplaceDoubleHyphen_countOther, !countOther_append. lia.
  - etransitivity; [apply ReplaceDoubleHyphen_length|].
    rewrite !length_append.
    pose proof (Join_windows_length s e (strings.Split diskName) Hse) as Hw.
    rewrite Join_Split in Hw. simpl. lia.
Qed.

(** C5 fails as stated: a disk identifier of 56 digits gives a name of 70
    bytes. *)
Lemma snapshotName_long_id_over_budget :
  ~ (forall diskName diskId now,
       exists name, snapshotName diskName diskId now = Some name
                    /\ len name <= maxSnapshotName).
Proof.
  intros H.
  destruct (H "db" "12345678901234567890123456789012345678901234567890123456"
              (mkTime 2024 1 15 12 30)) as [name [E Hlen]].
  vm_compute in E. injection E as <-. vm_compute in Hlen. now apply Hlen.
Qed.

(** C1: the code breaks the claim.  With an identifier of 19 bytes and a time
    part of 12 bytes (19 + 12 + 3 <= 55), a disk name of 23 bytes without
    hyphen gives a name of 56 bytes, and the disk name made of 40 [b], three
    hyphens and [c] gives a name of 74 bytes that contains a double hyphen. *)
Theorem snapshotName_breaks_budget :
  let diskId := "1234567890123456789" in
  let now := mkTime 2024 1 15 12 30 in
  len diskId + 12 + 3 <= maxSnapshotName
  /\ len (timePart now) = 12
  /\ snapshotName "aaaaaaaaaaaaaaaaaaaaaaa" diskId now
     = Some "aaaaaaaaaaaaaaaaaaaaaaa-1234567890123456789-202401151230"
  /\ len "aaaaaaaaaaaaaaaaaaaaaaa-1234567890123456789-202401151230" = 56
  /\ snapshotName "bbbbbbbbbbbbbbbbbbbbbbbbbbbbbbbbbbbbbbbb---c" diskId now
     = Some "bbbbbbbbbbbbbbbbbbbbbbbbbbbbbbbbbbbbbbbb--1234567890123456789-202401151230"
  /\ len "bbbbbbbbbbbbbbbbbbbbbbbbbbbbbbbbbbbbbbbb--1234567890123456789-202401151230" = 74
  /\ strings.ContainsDoubleHyphen
       "bbbbbbbbbbbbbbbbbbbbbbbbbbbbbbbbbbbbbbbb--1234567890123456789-202401151230" = true.
Proof.
  cbv zeta. repeat split; try (vm_compute; reflexivity).
  vm_compute. discriminate.
Qed.

(** ** Retention: which snapshots are deleted *)

Lemma skipn_nth_error {A} (l : list A) (n : nat) (x : A) :
  nth_error l n = Some x -> skipn n l = x :: skipn (S n) l.
Proof.
  revert n. induction l as [|y l IH]; intros [|n] E; simpl in *; try discriminate.
  - now injection E as ->.
  - now apply IH.
Qed.

Lemma In_skipn {A} (n : nat) (l : list A) (x : A) : In x (skipn n l) -> In x l.
Proof.
  intros H. rewrite <- (firstn_skipn n l). apply in_or_app. now right.
Qed.

Lemma snapshotsFrom_skipn (snapshots : list Snapshot) (steps : nat) :
  forall snapshotIndex,
    0 <= snapshotIndex ->
    snapshotIndex + Z.of_nat steps = lenOf snapshots ->
    snapshotsFrom snapshots steps snapshotIndex
    = Some (skipn (Z.to_nat snapshotIndex) snapshots).
Proof.
  induction steps as [|steps IH]; intros i Hi Hlen.
  - simpl. rewrite skipn_all2; [reflexivity | unfold lenOf in Hlen; lia].
  - cbn [snapshotsFrom].
    destruct (index_in_range snapshots i) as [x [Ex Enth]]; [lia|].
    rewrite Ex, IH by lia.
    rewrite (skipn_nth_error _ _ _ Enth).
    replace (Z.to_nat (i + 1)) with (S (Z.to_nat i)) by lia. reflexivity.
Qed.

(** For a limit that is not negative the goroutines of the deletions get the
    snapshots from index [limit] on. *)
Lemma snapshotsToDelete_skipn (limit : Z) (snapshots : list Snapshot) :
  0 <= limit ->
  snapshotsToDelete limit snapshots = Some (skipn (Z.to_nat limit) snapshots).
Proof.
  intros Hl. unfold snapshotsToDelete.
  destruct (Z_le_gt_dec limit (lenOf snapshots)) as [Hle|Hgt].
  - apply snapshotsFrom_skipn; lia.
  - replace (Z.to_nat (lenOf snapshots - limit)) with O by lia.
    simpl. rewrite skipn_all2; [reflexivity | unfold lenOf in Hgt; lia].
Qed.


Lemma Max_spec (x y : Z) : Max x y = Z.max x y.
Proof.
  unfold Max. destruct (x >? y) eqn:E.
  - rewrite Z.gtb_ltb in E. apply Z.ltb_lt in E. lia.
  - rewrite Z.gtb_ltb in E. apply Z.ltb_ge in E. lia.
Qed.

(** ** Computations *)


Lemma bind_ret {A B} (a : A) (k : A -> M B) : bind (ret a) k = k a.
Proof. unfold bind. simpl. now destruct (k a). Qed.

Lemma bind_returned {A B} (m : M A) (k : A -> M B) (a : A) :
  outcome m = Ret a ->
  bind m k = (events m ++ events (k a), outcome (k a)).
Proof. intros E. unfold bind. now rewrite E. Qed.

Lemma bind_exited {A B} (m : M A) (k : A -> M B) (code : Z) :
  outcome m = Exit code -> bind m k = (events m, Exit code).
Proof. intros E. unfold bind. now rewrite E. Qed.

Lemma bind_log {B} (line : string) (k : unit -> M B) :
  bind (log_Print line) k = (Log line :: events (k tt), outcome (k tt)).
Proof. reflexivity. Qed.

Lemma outcome_bind_Ret {A B} (m : M A) (k : A -> M B) (b : B) :
  outcome (bind m k) = Ret b ->
  exists a, outcome m = Ret a /\ outcome (k a) = Ret b.
Proof.
  unfold bind. destruct (outcome m) as [a| | |] eqn:E; simpl; try discriminate.
  intros H. now exists a.
Qed.

Lemma commands_app (l1 l2 : list Event) : commands (l1 ++ l2) = commands l1 ++ commands l2.
Proof.
  induction l1 as [|[line|c args] l1 IH]; simpl; [reflexivity | exact IH | now rewrite IH].
Qed.

Lemma logLines_app (l1 l2 : list Event) : logLines (l1 ++ l2) = logLines l1 ++ logLines l2.
Proof.
  induction l1 as [|[line|c args] l1 IH]; simpl; [reflexivity | now rewrite IH | exact IH].
Qed.

Lemma commands_logs {A} (f : A -> string) (l : list A) :
  commands (map (fun a => Log (f a)) l) = [].
Proof. induction l as [|a l IH]; [reflexivity | exact IH]. Qed.

Lemma logLines_logs {A} (f : A -> string) (l : list A) :
  logLines (map (fun a => Log (f a)) l) = map f l.
Proof. induction l as [|a l IH]; [reflexivity | simpl; now rewrite IH]. Qed.

Lemma commands_each {A} (dryRun : bool) (f : A -> list string) (l : list A) :
  commands (flat_map (fun a => if dryRun then [] else [Command "gcloud" (f a)]) l)
  = if dryRun then [] else map f l.
Proof.
  destruct dryRun; induction l as [|a l IH]; simpl; auto. now rewrite IH.
Qed.

Lemma logLines_each {A} (dryRun : bool) (f : A -> list string) (l : list A) :
  logLines (flat_map (fun a => if dryRun then [] else [Command "gcloud" (f a)]) l) = [].
Proof.
  destruct dryRun; induction l as [|a l IH]; simpl; auto.
Qed.

(** A fan-out whose goroutines all write to the channel. *)
Lemma runTasks_all_sent {A B} (task : A -> M (option B)) (ev : A -> list Event)
    (f : A -> B) (tasks : list A) :
  (forall a, In a tasks -> task a = (ev a, Ret (Some (f a)))) ->
  forall chan, runTasks task tasks chan = (flat_map ev tasks, Ret (chan ++ map f tasks)).
Proof.
  induction tasks as [|a tasks IH]; intros Hall chan.
  - simpl. now rewrite app_nil_r.
  - cbn [runTasks flat_map map].
    rewrite (bind_returned _ _ (Some (f a))) by (rewrite Hall; [reflexivity | now left]).
    rewrite IH by (intros a' Ha'; apply Hall; now right).
    rewrite Hall by now left. simpl. now rewrite <- app_assoc.
Qed.

(** ** The scheduler only reorders *)

Lemma takeAt_Permutation {A} (k : nat) (l : list A) (x : A) (rest : list A) :
  takeAt k l = Some (x, rest) -> Permutation l (x :: rest).
Proof.
  revert k x rest. induction l as [|y l IH]; intros [|k] x rest E; simpl in E;
    try discriminate.
  - injection E as -> ->. apply Permutation_refl.
  - destruct (takeAt k l) as [[z rest']|] eqn:Ek; [|discriminate].
    injection E as -> <-.
    apply perm_trans with (y :: x :: rest'); [|apply perm_swap].
    apply perm_skip. now apply (IH k).
Qed.

Lemma takeAt_in_range {A} (k : nat) (l : list A) :
  (k < List.length l)%nat -> exists x rest, takeAt k l = Some (x, rest).
Proof.
  revert k. induction l as [|y l IH]; intros [|k] Hk; simpl in *; try lia.
  - now exists y, l.
  - destruct (IH k) as [x [rest E]]; [lia|]. rewrite E. now exists x, (y :: rest).
Qed.

Lemma scheduleFrom_Permutation {A} (fuel : nat) :
  forall (picks : list nat) (ready : list A),
    List.length ready = fuel -> Permutation (scheduleFrom fuel picks ready) ready.
Proof.
  induction fuel as [|fuel IH]; intros picks ready Hlen.
  - destruct ready; [apply Permutation_refl | discriminate].
  - cbn [scheduleFrom].
    destruct (takeAt_in_range (Nat.modulo (hd O picks) (List.length ready)) ready)
      as [x [rest E]].
    + apply Nat.mod_upper_bound. lia.
    + rewrite E. pose proof (takeAt_Permutation _ _ _ _ E) as HP.
      apply perm_trans with (x :: rest); [|now apply Permutation_sym].
      apply perm_skip, IH.
      apply Permutation_length in HP. simpl in HP. lia.
Qed.

Lemma schedule_Permutation {A} (picks : list nat) (ready : list A) :
  Permutation (schedule picks ready) ready.
Proof. now apply scheduleFrom_Permutation. Qed.

Lemma schedule_length {A} (picks : list nat) (ready : list A) :
  List.length (schedule picks ready) = List.length ready.
Proof. apply Permutation_length, schedule_Permutation. Qed.

Lemma takeAt_In {A} (l : list A) (x : A) :
  In x l -> exists k rest, (k < List.length l)%nat /\ takeAt k l = Some (x, rest).
Proof.
  induction l as [|y l IH]; intros Hin; [contradiction|].
  destruct Hin as [->|Hin].
  - exists O, l. split; [simpl; lia | reflexivity].
  - destruct (IH Hin) as [k [rest [Hk E]]].
    exists (S k), (y :: rest). split; [simpl; lia | simpl; now rewrite E].
Qed.

(** Every order of the goroutines is the order of some list of choices. *)
Lemma schedule_complete {A} (order : list A) :
  forall ready, Permutation ready order -> exists picks, schedule picks ready = order.
Proof.
  induction order as [|x order IH]; intros ready HP.
  - apply Permutation_sym, Permutation_nil in HP. subst ready. now exists [].
  - destruct (takeAt_In ready x) as [k [rest [Hk E]]].
    { apply (Permutation_in x (Permutation_sym HP)). now left. }
    pose proof (takeAt_Permutation _ _ _ _ E) as HP'.
    destruct (IH rest) as [picks Hpicks].
    { apply Permutation_cons_inv with x.
      apply perm_trans with ready; [now apply Permutation_sym | exact HP]. }
    exists (k :: picks). unfold schedule.
    destruct (List.length ready) as [|n] eqn:Hlen; [lia|].
    cbn [scheduleFrom hd tl]. rewrite Nat.mod_small by lia. rewrite E.
    f_equal. apply Permutation_length in HP'. simpl in HP'.
    replace n with (List.length rest) by lia. exact Hpicks.
Qed.

Lemma schedule_In {A} (picks : list nat) (ready : list A) (x : A) :
  In x (schedule picks ready) <-> In x ready.
Proof.
  split; apply Permutation_in;
    [apply schedule_Permutation | apply Permutation_sym, schedule_Permutation].
Qed.

(** ** The provider command *)

Section Commands.

Variable world : World.

Lemma getCommandResult_succeeded (command : string) (args : list string) :
  snd (CombinedOutput world command args) = None ->
  getCommandResult world command args
  = ([Command command args], Ret (fst (CombinedOutput world command args), None)).
Proof.
  intros E. unfold getCommandResult, run, bind. simpl.
  destruct (CombinedOutput world command args) as [cmdOut cmdErr].
  simpl in E. subst cmdErr. reflexivity.
Qed.

Lemma getCommandResult_failed (command : string) (args : list string) (err : string) :
  snd (CombinedOutput world command args) = Some err ->
  getCommandResult world command args
  = ([Command command args; Log (fst (CombinedOutput world command args)); Log err],
     Exit 1).
Proof.
  intros E. unfold getCommandResult, run, bind. simpl.
  destruct (CombinedOutput world command args) as [cmdOut cmdErr].
  simpl in E. subst cmdErr. reflexivity.
Qed.

Lemma deleteTask_sent (dryRun : bool) (snapshotToDelete : Snapshot) :
  (dryRun = false ->
   snd (CombinedOutput world "gcloud" (deleteSnapshotArgs snapshotToDelete)) = None) ->
  deleteTask world dryRun snapshotToDelete
  = (if dryRun then [] else [Command "gcloud" (deleteSnapshotArgs snapshotToDelete)],
     Ret (Some snapshotToDelete)).
Proof.
  intros Hok. unfold deleteTask, deleteSnapshot. destruct dryRun.
  - reflexivity.
  - rewrite getCommandResult_succeeded by now apply Hok. reflexivity.
Qed.

Lemma logDeleted_all (snapshots : list Snapshot) :
  logDeleted (List.length snapshots) snapshots
  = (map (fun s => Log ("Deleted snapshot " ++ Snapshot_Name s)) snapshots, Ret tt).
Proof.
  induction snapshots as [|s rest IH]; [reflexivity|].
  cbn [logDeleted List.length receive]. rewrite bind_ret, bind_log, IH. reflexivity.
Qed.

(** What the clean-up of one disk does when no deletion fails: the
    snapshots from index [limit] on are deleted, in the order of the
    scheduler, and the disk is written to the channel. *)
Lemma cleanTask_run (limit : Z) (dryRun : bool) (diskIndex : nat) (disk : Disk) :
  0 <= limit ->
  (dryRun = false ->
   forall s, In s (Snapshots disk) ->
             snd (CombinedOutput world "gcloud" (deleteSnapshotArgs s)) = None) ->
  let deleted := schedule (deletePicks world diskIndex)
                   (skipn (Z.to_nat limit) (Snapshots disk)) in
  outcome (cleanTask world limit dryRun (diskIndex, disk)) = Ret (Some disk)
  /\ commands (events (cleanTask world limit dryRun (diskIndex, disk)))
     = (if dryRun then [] else map deleteSnapshotArgs deleted)
  /\ logLines (events (cleanTask world limit dryRun (diskIndex, disk)))
     = match deleted with
       | [] => []
       | _ => ("Deleting " ++ fmt.d0 0 (lenOf (Snapshots disk) - limit)
               ++ " old snapshot(s) for disk " ++ Name disk)%string
              :: map (fun s => "Deleted snapshot " ++ Snapshot_Name s)%string deleted
       end.
Proof.
  intros Hlimit Hok deleted. unfold cleanTask.
  destruct (lenOf (Snapshots disk) - limit <=? 0) eqn:Ediff.
  - apply Z.leb_le in Ediff.
    assert (Hnil : deleted = []).
    { unfold deleted. rewrite skipn_all2; [reflexivity | unfold lenOf in Ediff; lia]. }
    rewrite Hnil. simpl. now destruct dryRun.
  - apply Z.leb_gt in Ediff.
    rewrite snapshotsToDelete_skipn by exact Hlimit. fold deleted.
    rewrite bind_log.
    rewrite (runTasks_all_sent (deleteTask world dryRun)
               (fun s => if dryRun then [] else [Command "gcloud" (deleteSnapshotArgs s)])
               (fun s => s)).
    2:{ intros s Hs. apply deleteTask_sent. intros Hd. apply Hok; [exact Hd|].
        apply schedule_In in Hs. now apply In_skipn in Hs. }
    rewrite map_id. cbn [app].
    assert (Hlen : Z.to_nat (lenOf (Snapshots disk) - limit) = List.length deleted).
    { unfold deleted. rewrite schedule_length, length_skipn. unfold lenOf. lia. }
    rewrite Hlen.
    rewrite (bind_returned _ _ deleted) by reflexivity.
    rewrite (bind_returned _ _ tt) by (now rewrite logDeleted_all).
    rewrite logDeleted_all. cbn [outcome events fst snd ret].
    split; [reflexivity|]. split.
    + cbn [commands]. rewrite app_nil_r, commands_app.
      rewrite (commands_logs (fun s => "Deleted snapshot " ++ Snapshot_Name s)%string).
      rewrite app_nil_r. apply commands_each.
    + cbn [logLines]. rewrite app_nil_r, logLines_app.
      rewrite logLines_each. cbn [app].
      rewrite (logLines_logs (fun s => "Deleted snapshot " ++ Snapshot_Name s)%string).
      destruct deleted as [|s l] eqn:Ed; [|reflexivity].
      simpl in Hlen. lia.
Qed.

(** C4: for a disk with more snapshots than the limit (the limit not
    negative), the snapshots handed to the deletion goroutines are the ones
    at the indices [limit] to [len - 1] of the newest-first sequence, in that
    order, as many as the excess; they are the snapshots the clean-up of the
    disk deletes.  With the limit 0 they are all the snapshots of the disk,
    so every snapshot that existed before the run is among them. *)
Theorem retention_deletes_oldest (limit : Z) (dryRun : bool) (diskIndex : nat)
    (disk : Disk) :
  0 <= limit < lenOf (Snapshots disk) ->
  (dryRun = false ->
   forall s, In s (Snapshots disk) ->
             snd (CombinedOutput world "gcloud" (deleteSnapshotArgs s)) = None) ->
  exists toDelete,
    snapshotsToDelete limit (Snapshots disk) = Some toDelete
    /\ lenOf toDelete = lenOf (Snapshots disk) - limit
    /\ (forall k, nth_error toDelete k
                  = nth_error (Snapshots disk) (Z.to_nat limit + k))
    /\ commands (events (cleanTask world limit dryRun (diskIndex, disk)))
       = (if dryRun then []
          else map deleteSnapshotArgs (schedule (deletePicks world diskIndex) toDelete))
    /\ Permutation (schedule (deletePicks world diskIndex) toDelete) toDelete
    /\ (limit = 0 ->
        toDelete = Snapshots disk
        /\ forall created old, Snapshots disk = created :: old ->
                               forall s, In s old -> In s toDelete).
Proof.
  intros Hlimit Hok.
  exists (skipn (Z.to_nat limit) (Snapshots disk)).
  split; [apply snapshotsToDelete_skipn; lia|].
  split; [unfold lenOf in *; rewrite length_skipn; lia|].
  split; [intros k; apply nth_error_skipn|].
  split; [apply (cleanTask_run limit dryRun diskIndex disk); [lia | exact Hok]|].
  split; [apply schedule_Permutation|].
  intros ->. simpl. split; [reflexivity|].
  intros created old -> s Hs. now right.
Qed.

(** C2 (as amended): the retention phase works on the snapshots of the disk
    after the creation phase, the new snapshot in front of the [N] earlier
    ones.  For a limit [L] that is not negative the sequence splits into the
    snapshots kept, [min (N + 1) L] of them with the new one counted, and
    the snapshots deleted, [max 0 (N + 1 - L)] of them, which is also the
    number reported for the disk. *)
Theorem retention_counts (limit : Z) (dryRun : bool) (diskIndex : nat) (disk : Disk)
    (created : Snapshot) (old : list Snapshot) :
  0 <= limit ->
  Snapshots disk = created :: old ->
  (dryRun = false ->
   forall s, In s (Snapshots disk) ->
             snd (CombinedOutput world "gcloud" (deleteSnapshotArgs s)) = None) ->
  exists kept deleted,
    created :: old = kept ++ deleted
    /\ outcome (cleanTask world limit dryRun (diskIndex, disk)) = Ret (Some disk)
    /\ commands (events (cleanTask world limit dryRun (diskIndex, disk)))
       = (if dryRun then []
          else map deleteSnapshotArgs (schedule (deletePicks world diskIndex) deleted))
    /\ lenOf kept = Z.min (lenOf old + 1) limit
    /\ lenOf deleted = Z.max 0 (lenOf old + 1 - limit)
    /\ reportedDeleted limit disk = Z.max 0 (lenOf old + 1 - limit).
Proof.
  intros Hlimit Hsnap Hok.
  exists (firstn (Z.to_nat limit) (Snapshots disk)),
         (skipn (Z.to_nat limit) (Snapshots disk)).
  destruct (cleanTask_run limit dryRun diskIndex disk Hlimit Hok) as [Hout [Hcmd _]].
  split; [now rewrite firstn_skipn|].
  split; [exact Hout|]. split; [exact Hcmd|].
  unfold reportedDeleted. rewrite Max_spec. unfold lenOf.
  rewrite length_firstn, length_skipn, Hsnap. simpl List.length. lia.
Qed.

(** C3 (as amended): with a limit of at least 1 the snapshot put in front
    of a disk's snapshots by the creation phase is never handed to a
    deletion goroutine: the snapshots deleted are earlier snapshots, those
    from index [limit - 1] on of the sequence before the creation. *)
Theorem retention_spares_created (limit : Z) (dryRun : bool) (diskIndex : nat)
    (disk : Disk) (created : Snapshot) (old : list Snapshot) :
  1 <= limit ->
  Snapshots disk = created :: old ->
  (dryRun = false ->
   forall s, In s (Snapshots disk) ->
             snd (CombinedOutput world "gcloud" (deleteSnapshotArgs s)) = None) ->
  snapshotsToDelete limit (Snapshots disk) = Some (skipn (Z.to_nat (limit - 1)) old)
  /\ commands (events (cleanTask world limit dryRun (diskIndex, disk)))
     = (if dryRun then []
        else map deleteSnapshotArgs
               (schedule (deletePicks world diskIndex) (skipn (Z.to_nat (limit - 1)) old))).
Proof.
  intros Hlimit Hsnap Hok.
  assert (Hskip : skipn (Z.to_nat limit) (Snapshots disk)
                  = skipn (Z.to_nat (limit - 1)) old).
  { rewrite Hsnap. replace (Z.to_nat limit) with (S (Z.to_nat (limit - 1))) by lia.
    reflexivity. }
  rewrite <- Hskip. split.
  - apply snapshotsToDelete_skipn. lia.
  - apply (cleanTask_run limit dryRun diskIndex disk); [lia | exact Hok].
Qed.

End Commands.

Lemma retention_deletes_oldest_witness :
  exists toDelete,
    snapshotsToDelete 1 Demo.threeSnapshots = Some toDelete
    /\ lenOf toDelete = 2
    /\ toDelete = [mkSnapshot "db-2" "2"; mkSnapshot "db-1" "1"].
Proof.
  destruct (retention_deletes_oldest (Demo.world []) 1 false 0
              (mkDisk "db" "42" "europe-west1-b" Demo.threeSnapshots))
    as [toDelete [E [Hlen _]]].
  - unfold lenOf. simpl. lia.
  - intros _ s _. reflexivity.
  - exists toDelete. split; [exact E|]. split; [exact Hlen|].
    simpl in E. vm_compute in E. now injection E.
Defined.

Lemma retention_counts_witness :
  reportedDeleted 2 (mkDisk "db" "42" "europe-west1-b"
                       (mkSnapshot "db-4" "" :: Demo.threeSnapshots)) = 2.
Proof.
  destruct (retention_counts (Demo.world []) 2 true 0
              (mkDisk "db" "42" "europe-west1-b" (mkSnapshot "db-4" "" :: Demo.threeSnapshots))
              (mkSnapshot "db-4" "") Demo.threeSnapshots)
    as [kept [deleted [_ [_ [_ [_ [_ H]]]]]]].
  - lia.
  - reflexivity.
  - discriminate.
  - exact H.
Defined.

Lemma retention_spares_created_witness :
  snapshotsToDelete 2 (mkSnapshot "db-4" "" :: Demo.threeSnapshots)
  = Some [mkSnapshot "db-2" "2"; mkSnapshot "db-1" "1"].
Proof.
  apply (retention_spares_created (Demo.world []) 2 true 0
           (mkDisk "db" "42" "europe-west1-b" (mkSnapshot "db-4" "" :: Demo.threeSnapshots))
           (mkSnapshot "db-4" "") Demo.threeSnapshots).
  - lia.
  - reflexivity.
  - discriminate.
Defined.

(** C2 fails as stated: a disk with 3 snapshots and the limit 2.  The run
    reports 2 deleted snapshots, not [max 0 (3 - 2)], and deletes two of the
    three earlier snapshots, so that one of them remains, not [min 3 2]. *)
Lemma retention_counts_include_created :
  let evs := events (main (Demo.world Demo.threeSnapshots) "name = db" 2 true) in
  In (Log "Cleaned disk db: 2 snapshot(s) deleted") evs
  /\ In (Log "Deleted snapshot db-2") evs
  /\ In (Log "Deleted snapshot db-1") evs
  /\ Z.max 0 (lenOf Demo.threeSnapshots - 2) = 1
  /\ Z.min (lenOf Demo.threeSnapshots) 2 = 2.
Proof.
  vm_compute. repeat split; repeat (first [left; reflexivity | right]).
Qed.

(** C3 fails as stated: with the limit 0 the run deletes the snapshot it has
    just created. *)
Lemma created_snapshot_deleted_at_limit_zero :
  let evs := events (main (Demo.world []) "name = db" 0 false) in
  In (Command "gcloud"
        ["beta"; "compute"; "disks"; "snapshot"; "db"; "--zone"; "europe-west1-b";
         "--snapshot-names"; "db-42-202401151230"]%string) evs
  /\ In (Command "gcloud"
           ["beta"; "compute"; "snapshots"; "delete"; "db-42-202401151230"]%string) evs
  /\ snapshotsToDelete 0 [mkSnapshot "db-42-202401151230" ""]
     = Some [mkSnapshot "db-42-202401151230" ""].
Proof.
  vm_compute. repeat split; repeat (first [left; reflexivity | right]).
Qed.

(** ** Errors of the provider command *)

Section Errors.

Variable world : World.

Lemma getCommandResult_outcome (command : string) (args : list string) :
  (snd (CombinedOutput world command args) = None
   /\ getCommandResult world command args
      = ([Command command args], Ret (fst (CombinedOutput world command args), None)))
  \/ (exists err, snd (CombinedOutput world command args) = Some err
                  /\ getCommandResult world command args
                     = ([Command command args;
                         Log (fst (CombinedOutput world command args)); Log err], Exit 1)).
Proof.
  destruct (snd (CombinedOutput world command args)) as [err|] eqn:E.
  - right. exists err. split; [reflexivity|]. now apply getCommandResult_failed.
  - left. split; [reflexivity|]. now apply getCommandResult_succeeded.
Qed.

(** C10: whenever [getCommandResult] returns, its error is nil: when the
    command fails the process exits with status 1 at the fatal log call, and
    the statement after it, which returns the error, is never reached.  So
    none of its callers (disk listing, snapshot listing, creation,
    deletion) ever returns an error either, and the branches that handle
    one are dead. *)
Theorem command_errors_never_returned :
  (forall command args err,
      snd (CombinedOutput world command args) = Some err ->
      outcome (getCommandResult world command args) = Exit 1)
  /\ (forall command args cmdOut err,
         outcome (getCommandResult world command args) = Ret (cmdOut, err) -> err = None)
  /\ (forall filter disks err,
         outcome (getDisksToSnapshot world filter) = Ret (disks, err) -> err = None)
  /\ (forall disk snapshots err,
         outcome (getDiskSnapshots world disk) = Ret (snapshots, err) -> err = None)
  /\ (forall now disk dryRun snapshot err,
         outcome (createSnapshotForDisk world now disk dryRun) = Ret (snapshot, err) ->
         err = None)
  /\ (forall snapshot dryRun err,
         outcome (deleteSnapshot world snapshot dryRun) = Ret err -> err = None).
Proof.
  split; [|split; [|split; [|split; [|split]]]].
  - intros command args err E.
    now rewrite (getCommandResult_failed world command args err E).
  - intros command args cmdOut err.
    destruct (getCommandResult_outcome command args) as [[_ E]|[e [_ E]]];
      rewrite E; simpl; intros H; [now injection H | discriminate].
  - intros filter disks err. unfold getDisksToSnapshot.
    destruct (getCommandResult_outcome "gcloud" (listDisksArgs filter))
      as [[_ E]|[e [_ E]]]; rewrite E; unfold bind; simpl; intros H;
      [now injection H | discriminate].
  - intros disk snapshots err. unfold getDiskSnapshots.
    destruct (getCommandResult_outcome "gcloud" (listSnapshotsArgs disk))
      as [[_ E]|[e [_ E]]]; rewrite E; unfold bind; simpl; intros H;
      [now injection H | discriminate].
  - intros now disk dryRun snapshot err. unfold createSnapshotForDisk.
    destruct (snapshotName (Name disk) (Id disk) now) as [name|]; [|discriminate].
    destruct dryRun; [simpl; intros H; now injection H|].
    destruct (getCommandResult_outcome "gcloud" (createSnapshotArgs disk name))
      as [[_ E]|[e [_ E]]]; rewrite E; unfold bind; simpl; intros H;
      [now injection H | discriminate].
  - intros snapshot dryRun err. unfold deleteSnapshot.
    destruct dryRun; [simpl; intros H; now injection H|].
    destruct (getCommandResult_outcome "gcloud" (deleteSnapshotArgs snapshot))
      as [[_ E]|[e [_ E]]]; rewrite E; unfold bind; simpl; intros H;
      [now injection H | discriminate].
Qed.

End Errors.

(** ** The inventory *)

Lemma nth_error_middle {A} (pre : list A) (x : A) (rest : list A) :
  nth_error (pre ++ x :: rest) (List.length pre) = Some x.
Proof.
  induction pre as [|y pre IH]; [reflexivity | exact IH].
Qed.

Lemma setAt_middle {A} (pre : list A) (x y : A) (rest : list A) :
  setAt (List.length pre) y (pre ++ x :: rest) = pre ++ y :: rest.
Proof.
  induction pre as [|z pre IH]; [reflexivity | simpl; now rewrite IH].
Qed.

Lemma nth_error_split {A} (l : list A) (i : nat) (x : A) :
  nth_error l i = Some x ->
  exists pre rest, l = pre ++ x :: rest /\ List.length pre = i.
Proof.
  revert i. induction l as [|y l IH]; intros [|i] E; simpl in E; try discriminate.
  - injection E as ->. now exists [], l.
  - destruct (IH i E) as [pre [rest [-> Hlen]]].
    exists (y :: pre), rest. simpl. now rewrite Hlen.
Qed.

Section Inventory.

Variable world : World.

Lemma logSnapshots_run (snapshots : list Snapshot) :
  logSnapshots snapshots
  = (map (fun s => Log ("      - " ++ Snapshot_Name s)) snapshots, Ret tt).
Proof.
  induction snapshots as [|s rest IH]; [reflexivity|].
  cbn [logSnapshots]. rewrite bind_log, IH. reflexivity.
Qed.

Lemma getDisksToSnapshot_listed (filter : string) :
  snd (CombinedOutput world "gcloud" (listDisksArgs filter)) = None ->
  getDisksToSnapshot world filter
  = ([Command "gcloud" (listDisksArgs filter)],
     Ret (json_Unmarshal (decodeDisks world)
            (fst (CombinedOutput world "gcloud" (listDisksArgs filter))) [], None)).
Proof.
  intros E. unfold getDisksToSnapshot.
  rewrite getCommandResult_succeeded by exact E. reflexivity.
Qed.

Lemma getDiskSnapshots_listed (disk : Disk) :
  snd (CombinedOutput world "gcloud" (listSnapshotsArgs disk)) = None ->
  getDiskSnapshots world disk
  = ([Command "gcloud" (listSnapshotsArgs disk)],
     Ret (json_Unmarshal (decodeSnapshots world)
            (fst (CombinedOutput world "gcloud" (listSnapshotsArgs disk))) [], None)).
Proof.
  intros E. unfold getDiskSnapshots.
  rewrite getCommandResult_succeeded by exact E. reflexivity.
Qed.

Lemma getDiskSnapshots_failed (disk : Disk) (err : string) :
  snd (CombinedOutput world "gcloud" (listSnapshotsArgs disk)) = Some err ->
  outcome (getDiskSnapshots world disk) = Exit 1.
Proof.
  intros E. unfold getDiskSnapshots.
  rewrite (getCommandResult_failed world _ _ err E). reflexivity.
Qed.

Lemma loadSnapshotsOfDisk_returned (disksErr : option string) (diskIndex : nat)
    (disks : list Disk) (disk : Disk) (disks' : list Disk) :
  nth_error disks diskIndex = Some disk ->
  outcome (loadSnapshotsOfDisk world disksErr diskIndex disks) = Ret disks' ->
  disks' = setAt diskIndex (loaded world disk) disks.
Proof.
  intros Hnth. unfold loadSnapshotsOfDisk. rewrite Hnth, bind_log.
  destruct (snd (CombinedOutput world "gcloud" (listSnapshotsArgs disk))) as [err|] eqn:E.
  - rewrite (bind_exited _ _ 1) by now apply (getDiskSnapshots_failed disk err).
    discriminate.
  - rewrite getDiskSnapshots_listed by exact E.
    rewrite (bind_returned _ _ (_, None)) by reflexivity. cbv beta iota.
    rewrite (bind_returned _ _ tt) by now rewrite logSnapshots_run.
    cbn [outcome events fst snd ret].
    intros H. now injection H as <-.
Qed.

Lemma loadSnapshots_loop (disksErr : option string) (rest : list Disk) :
  forall (pre disks' : list Disk),
    outcome (forLoop (List.length rest) (List.length pre)
               (loadSnapshotsOfDisk world disksErr) (pre ++ rest)) = Ret disks' ->
    disks' = pre ++ map (loaded world) rest.
Proof.
  induction rest as [|disk rest IH]; intros pre disks' H.
  - simpl in H. now injection H as <-.
  - cbn [List.length forLoop] in H.
    apply outcome_bind_Ret in H. destruct H as [disks1 [H1 H2]].
    apply (loadSnapshotsOfDisk_returned _ _ _ disk) in H1;
      [|apply nth_error_middle].
    rewrite setAt_middle in H1. subst disks1.
    replace (pre ++ loaded world disk :: rest)
      with ((pre ++ [loaded world disk]) ++ rest) in H2
      by (now rewrite <- app_assoc).
    replace (S (List.length pre)) with (List.length (pre ++ [loaded world disk])) in H2
      by (rewrite length_app; simpl; lia).
    apply IH in H2. subst disks'. now rewrite <- app_assoc.
Qed.

(** When the inventory is complete every disk holds the snapshots listed
    for it. *)
Lemma loadSnapshots_returned (disksErr : option string) (disks disks' : list Disk) :
  outcome (loadSnapshots world disksErr disks) = Ret disks' ->
  disks' = map (loaded world) disks.
Proof.
  intros H. now apply (loadSnapshots_loop disksErr disks []) in H.
Qed.

(** C9: a listing command that succeeds with output that is not valid JSON
    is taken for an empty list, the decoding error being dropped.  For the
    disk listing the loader returns no disk and a nil error, and the run
    logs that there is no disk to snapshot and ends normally after this one
    command.  For the snapshot listing of a disk the loader returns no
    snapshot and a nil error, and the inventory holds the disk with no
    snapshot. *)
Theorem unparseable_listing_is_empty :
  (forall filter limit dryRun cmdOut,
      CombinedOutput world "gcloud" (listDisksArgs filter) = (cmdOut, None) ->
      decodeDisks world cmdOut = None ->
      getDisksToSnapshot world filter
      = ([Command "gcloud" (listDisksArgs filter)], Ret ([], None))
      /\ outcome (main world filter limit dryRun) = Ret tt
      /\ commands (events (main world filter limit dryRun)) = [listDisksArgs filter]
      /\ last (logLines (events (main world filter limit dryRun))) EmptyString
         = "No disk to snapshot"%string)
  /\ (forall disk cmdOut,
         CombinedOutput world "gcloud" (listSnapshotsArgs disk) = (cmdOut, None) ->
         decodeSnapshots world cmdOut = None ->
         getDiskSnapshots world disk
         = ([Command "gcloud" (listSnapshotsArgs disk)], Ret ([], None))
         /\ forall disksErr disks disks' diskIndex,
             outcome (loadSnapshots world disksErr disks) = Ret disks' ->
             nth_error disks diskIndex = Some disk ->
             nth_error disks' diskIndex = Some (withSnapshots disk [])).
Proof.
  split.
  - intros filter limit dryRun cmdOut Eout Edec.
    assert (Hget : getDisksToSnapshot world filter
                   = ([Command "gcloud" (listDisksArgs filter)], Ret ([], None))).
    { rewrite getDisksToSnapshot_listed by now rewrite Eout.
      unfold json_Unmarshal. rewrite Eout. simpl. now rewrite Edec. }
    split; [exact Hget|].
    unfold main. rewrite bind_log.
    destruct dryRun.
    + rewrite (bind_returned _ _ tt) by reflexivity.
      rewrite bind_log, Hget. repeat split.
    + rewrite bind_ret, bind_log, Hget. repeat split.
  - intros disk cmdOut Eout Edec.
    assert (Hloaded : loaded world disk = withSnapshots disk []).
    { unfold loaded, json_Unmarshal. rewrite Eout. simpl. now rewrite Edec. }
    split.
    + rewrite getDiskSnapshots_listed by now rewrite Eout.
      unfold json_Unmarshal. rewrite Eout. simpl. now rewrite Edec.
    + intros disksErr disks disks' diskIndex Hret Hnth.
      apply loadSnapshots_returned in Hret. subst disks'.
      rewrite nth_error_map, Hnth. simpl. now rewrite Hloaded.
Qed.

End Inventory.

(** ** The creation phase *)

Lemma In_indexed {A} (l : list A) :
  forall (start i : nat) (x : A),
    In (i, x) (indexed start l) <-> (start <= i)%nat /\ nth_error l (i - start) = Some x.
Proof.
  induction l as [|y l IH]; intros start i x; simpl.
  - split; [tauto|]. intros [_ H]. now destruct (i - start)%nat.
  - rewrite IH. split.
    + intros [H|[Hle Hnth]].
      * injection H as -> ->. split; [lia|]. now rewrite Nat.sub_diag.
      * split; [lia|]. replace (i - start)%nat with (S (i - S start)) by lia. exact Hnth.
    + intros [Hle Hnth]. destruct (i - start)%nat as [|k] eqn:Ek.
      * left. simpl in Hnth. injection Hnth as ->. f_equal. lia.
      * right. split; [lia|]. simpl in Hnth. now replace (i - S start)%nat with k by lia.
Qed.

Lemma nth_error_attached (rest : list Disk) :
  forall (news : list Snapshot) (i : nat) (disk : Disk),
    List.length news = List.length rest ->
    nth_error rest i = Some disk ->
    exists created, In created news
                    /\ nth_error (map attached (combine rest news)) i
                       = Some (withSnapshots disk (created :: Snapshots disk)).
Proof.
  induction rest as [|d rest IH]; intros [|s news] [|i] disk Hlen Hnth;
    simpl in *; try discriminate.
  - injection Hnth as ->. exists s. split; [now left | reflexivity].
  - destruct (IH news i disk) as [created [Hin E]]; [lia | exact Hnth |].
    exists created. split; [now right | exact E].
Qed.

(** A fan-out that returns: every goroutine has returned, and the channel
    holds what they wrote, in the order in which they ran. *)
Lemma runTasks_returned {A B} (task : A -> M (option B)) (Q : A -> B -> Prop)
    (tasks : list A) :
  (forall a sent, In a tasks -> outcome (task a) = Ret sent ->
                  exists b, sent = Some b /\ Q a b) ->
  forall chan chan',
    outcome (runTasks task tasks chan) = Ret chan' ->
    exists sent, chan' = chan ++ sent /\ Forall2 Q tasks sent.
Proof.
  induction tasks as [|a tasks IH]; intros Hall chan chan' H.
  - simpl in H. injection H as <-. exists []. split; [now rewrite app_nil_r | constructor].
  - cbn [runTasks] in H. apply outcome_bind_Ret in H. destruct H as [sent1 [H1 H2]].
    destruct (Hall a sent1) as [b [-> Hb]]; [now left | exact H1 |].
    apply IH in H2; [|intros a' s' Ha'; apply Hall; now right].
    destruct H2 as [sent [-> HF]].
    exists (b :: sent). split; [now rewrite <- app_assoc | now constructor].
Qed.

Lemma Forall2_In_r {A B} (Q : A -> B -> Prop) (l : list A) (l' : list B) (b : B) :
  Forall2 Q l l' -> In b l' -> exists a, In a l /\ Q a b.
Proof.
  induction 1 as [|a b' l l' Hab HF IH]; intros Hin; [contradiction|].
  destruct Hin as [->|Hin].
  - exists a. split; [now left | exact Hab].
  - destruct (IH Hin) as [a' [Ha' Hq]]. exists a'. split; [now right | exact Hq].
Qed.

Section Creation.

Variable world : World.

Lemma createSnapshotForDisk_dry (now : Time) (disk : Disk) :
  exists name, snapshotName (Name disk) (Id disk) now = Some name
               /\ createSnapshotForDisk world now disk true
                  = ([], Ret (mkSnapshot name EmptyString, None)).
Proof.
  destruct (snapshotName_returns (Name disk) (Id disk) now) as [name E].
  exists name. split; [exact E|]. unfold createSnapshotForDisk. now rewrite E.
Qed.

Lemma createSnapshotForDisk_real (now : Time) (disk : Disk) :
  exists name,
    snapshotName (Name disk) (Id disk) now = Some name
    /\ ((snd (CombinedOutput world "gcloud" (createSnapshotArgs disk name)) = None
         /\ createSnapshotForDisk world now disk false
            = ([Command "gcloud" (createSnapshotArgs disk name)],
               Ret (mkSnapshot name EmptyString, None)))
        \/ (exists err,
               snd (CombinedOutput world "gcloud" (createSnapshotArgs disk name)) = Some err
               /\ createSnapshotForDisk world now disk false
                  = ([Command "gcloud" (createSnapshotArgs disk name);
                      Log (fst (CombinedOutput world "gcloud" (createSnapshotArgs disk name)));
                      Log err], Exit 1))).
Proof.
  destruct (snapshotName_returns (Name disk) (Id disk) now) as [name E].
  exists name. split; [exact E|]. unfold createSnapshotForDisk. rewrite E.
  destruct (getCommandResult_outcome world "gcloud" (createSnapshotArgs disk name))
    as [[Hok Hrun]|[err [Hko Hrun]]]; rewrite Hrun.
  - left. split; [exact Hok | reflexivity].
  - right. exists err. split; [exact Hko | reflexivity].
Qed.

(** The goroutine of a disk either writes the snapshot named for the disk
    to the channel or makes the process exit. *)
Lemma createTask_outcome (dryRun : bool) (diskIndex : nat) (disk : Disk) :
  exists name,
    snapshotName (Name disk) (Id disk) (clock world diskIndex) = Some name
    /\ (outcome (createTask world dryRun (diskIndex, disk))
        = Ret (Some (mkSnapshot name EmptyString))
        \/ (dryRun = false
            /\ (exists err, snd (CombinedOutput world "gcloud" (createSnapshotArgs disk name))
                            = Some err)
            /\ outcome (createTask world dryRun (diskIndex, disk)) = Exit 1)).
Proof.
  unfold createTask. destruct dryRun.
  - destruct (createSnapshotForDisk_dry (clock world diskIndex) disk) as [name [E Hrun]].
    exists name. split; [exact E|]. left. rewrite bind_log, Hrun. reflexivity.
  - destruct (createSnapshotForDisk_real (clock world diskIndex) disk)
      as [name [E [[_ Hrun]|[err [Hko Hrun]]]]];
      exists name; (split; [exact E|]); rewrite bind_log, Hrun.
    + left. reflexivity.
    + right. split; [reflexivity|]. split; [now exists err | reflexivity].
Qed.

Lemma attachSnapshots_loop (rest : list Disk) :
  forall (pre : list Disk) (chan : list Snapshot) (disks' : list Disk)
         (chan' : list Snapshot),
    outcome (forLoop (List.length rest) (List.length pre) attachSnapshot
               (pre ++ rest, chan)) = Ret (disks', chan') ->
    exists news, chan = news ++ chan'
                 /\ List.length news = List.length rest
                 /\ disks' = pre ++ map attached (combine rest news).
Proof.
  induction rest as [|disk rest IH]; intros pre chan disks' chan' H.
  - simpl in H. injection H as <- <-. exists []. simpl.
    now rewrite app_nil_r.
  - cbn [List.length forLoop] in H.
    apply outcome_bind_Ret in H. destruct H as [[disks1 chan1] [H1 H2]].
    unfold attachSnapshot in H1. rewrite nth_error_middle in H1.
    destruct chan as [|s chan]; [discriminate|].
    cbn [receive] in H1. rewrite bind_ret, bind_log in H1.
    cbn [outcome snd ret] in H1. injection H1 as <- <-.
    rewrite setAt_middle in H2.
    replace (pre ++ withSnapshots disk (s :: Snapshots disk) :: rest)
      with ((pre ++ [withSnapshots disk (s :: Snapshots disk)]) ++ rest) in H2
      by (now rewrite <- app_assoc).
    replace (S (List.length pre))
      with (List.length (pre ++ [withSnapshots disk (s :: Snapshots disk)])) in H2
      by (rewrite length_app; simpl; lia).
    apply IH in H2. destruct H2 as [news [-> [Hlen ->]]].
    exists (s :: news). simpl. rewrite <- app_assoc. now rewrite Hlen.
Qed.

(** C8: when the creation phase ends and the run goes on, every disk has
    exactly one snapshot more than before, put in front of the earlier
    ones, which keep their order; the new one is a snapshot created in this
    run, for this disk or for another one. *)
Theorem creation_prepends_one_snapshot (dryRun : bool) (disks disks' : list Disk) :
  outcome (createSnapshots world dryRun disks) = Ret disks' ->
  List.length disks' = List.length disks
  /\ forall diskIndex disk,
      nth_error disks diskIndex = Some disk ->
      exists created,
        nth_error disks' diskIndex
        = Some (withSnapshots disk (created :: Snapshots disk))
        /\ exists j diskj name,
            nth_error disks j = Some diskj
            /\ snapshotName (Name diskj) (Id diskj) (clock world j) = Some name
            /\ created = mkSnapshot name EmptyString.
Proof.
  intros H. unfold createSnapshots in H. rewrite bind_log in H.
  cbn [outcome snd] in H.
  apply outcome_bind_Ret in H. destruct H as [chan [Hfan H]].
  apply outcome_bind_Ret in H. destruct H as [[disks1 chan1] [Hatt H]].
  rewrite !bind_log in H. cbn [outcome snd ret] in H. injection H as <-.
  apply (runTasks_returned _
           (fun task created =>
              snapshotName (Name (snd task)) (Id (snd task)) (clock world (fst task))
              = Some (Snapshot_Name created)
              /\ created = mkSnapshot (Snapshot_Name created) EmptyString)) in Hfan.
  2:{ intros [j diskj] sent _ Hsent.
      destruct (createTask_outcome dryRun j diskj) as [name [E [Hret|[_ [_ Hexit]]]]].
      - rewrite Hret in Hsent. injection Hsent as <-.
        exists (mkSnapshot name EmptyString). now repeat split.
      - rewrite Hexit in Hsent. discriminate. }
  destruct Hfan as [sent [-> HF]]. simpl in Hatt.
  apply (attachSnapshots_loop disks []) in Hatt.
  destruct Hatt as [news [Hchan [Hlen ->]]]. simpl.
  split.
  - rewrite length_map, length_combine. lia.
  - intros diskIndex disk Hnth.
    destruct (nth_error_attached disks news diskIndex disk Hlen Hnth)
      as [created [Hin E]].
    exists created. split; [exact E|].
    assert (Hin' : In created sent) by (rewrite Hchan; apply in_or_app; now left).
    destruct (Forall2_In_r _ _ _ _ HF Hin') as [[j diskj] [Htask [Hname Hcreated]]].
    apply schedule_In, In_indexed in Htask. destruct Htask as [_ Htask].
    rewrite Nat.sub_0_r in Htask.
    exists j, diskj, (Snapshot_Name created). now repeat split.
Qed.

End Creation.

(** ** Events of a run *)

Lemma bind_Forall {A B} (P : Event -> Prop) (m : M A) (k : A -> M B) :
  Forall P (events m) ->
  (forall a, outcome m = Ret a -> Forall P (events (k a))) ->
  Forall P (events (bind m k)).
Proof.
  intros Hm Hk. unfold bind.
  destruct (outcome m) as [a| | |] eqn:E; simpl; try exact Hm.
  apply Forall_app. split; [exact Hm | now apply Hk].
Qed.

Lemma forLoop_Forall {S} (P : Event -> Prop) (body : nat -> S -> M S) :
  (forall i s, Forall P (events (body i s))) ->
  forall steps i s, Forall P (events (forLoop steps i body s)).
Proof.
  intros Hbody. induction steps as [|steps IH]; intros i s.
  - constructor.
  - cbn [forLoop]. apply bind_Forall; [apply Hbody | intros s' _; apply IH].
Qed.

Lemma runTasks_Forall {A B} (P : Event -> Prop) (task : A -> M (option B)) :
  (forall a, Forall P (events (task a))) ->
  forall tasks chan, Forall P (events (runTasks task tasks chan)).
Proof.
  intros Htask. induction tasks as [|a tasks IH]; intros chan.
  - constructor.
  - cbn [runTasks]. apply bind_Forall; [apply Htask | intros sent _; apply IH].
Qed.


Section Events.

Variable world : World.
Variable P : Event -> Prop.
Hypothesis P_Log : forall line, P (Log line).

Lemma log_Print_Forall (line : string) : Forall P (events (log_Print line)).
Proof. repeat constructor. apply P_Log. Qed.

Lemma getCommandResult_Forall (command : string) (args : list string) :
  P (Command command args) ->
  Forall P (events (getCommandResult world command args)).
Proof.
  intros Hcmd.
  destruct (getCommandResult_outcome world command args) as [[_ E]|[err [_ E]]];
    rewrite E; repeat constructor; auto.
Qed.

Lemma logSnapshots_Forall (snapshots : list Snapshot) :
  Forall P (events (logSnapshots snapshots)).
Proof.
  rewrite logSnapshots_run. simpl. apply Forall_forall.
  intros e He. apply in_map_iff in He. destruct He as [s [<- _]]. apply P_Log.
Qed.

Hypothesis P_listDisks : forall filter, P (Command "gcloud" (listDisksArgs filter)).
Hypothesis P_listSnapshots : forall disk, P (Command "gcloud" (listSnapshotsArgs disk)).

Lemma getDisksToSnapshot_Forall (filter : string) :
  Forall P (events (getDisksToSnapshot world filter)).
Proof.
  unfold getDisksToSnapshot. apply bind_Forall.
  - apply getCommandResult_Forall, P_listDisks.
  - intros [cmdOut [err|]] _; constructor.
Qed.

Lemma getDiskSnapshots_Forall (disk : Disk) :
  Forall P (events (getDiskSnapshots world disk)).
Proof.
  unfold getDiskSnapshots. apply bind_Forall.
  - apply getCommandResult_Forall, P_listSnapshots.
  - intros [cmdOut [err|]] _; constructor.
Qed.

Lemma loadSnapshots_Forall (disksErr : option string) (disks : list Disk) :
  Forall P (events (loadSnapshots world disksErr disks)).
Proof.
  unfold loadSnapshots. apply forLoop_Forall. intros i s.
  unfold loadSnapshotsOfDisk. destruct (nth_error s i) as [disk|]; [|constructor].
  apply bind_Forall; [apply log_Print_Forall | intros _ _].
  apply bind_Forall; [apply getDiskSnapshots_Forall | intros [snapshots [err|]] _].
  - apply bind_Forall; [repeat constructor; apply P_Log | intros; constructor].
  - apply bind_Forall; [apply logSnapshots_Forall | intros; constructor].
Qed.

Lemma attachSnapshots_Forall (disks : list Disk) (chan : list Snapshot) :
  Forall P (events (attachSnapshots disks chan)).
Proof.
  unfold attachSnapshots. apply forLoop_Forall. intros i [ds ch].
  unfold attachSnapshot. destruct (nth_error ds i) as [disk|]; [|constructor].
  apply bind_Forall; [destruct ch; constructor | intros [s ch'] _].
  apply bind_Forall; [apply log_Print_Forall | intros; constructor].
Qed.

(** The creation phase leaves only log lines and, unless the run is dry,
    the creation commands. *)
Lemma createSnapshots_Forall (dryRun : bool) (disks : list Disk) :
  (dryRun = false ->
   forall disk name, P (Command "gcloud" (createSnapshotArgs disk name))) ->
  Forall P (events (createSnapshots world dryRun disks)).
Proof.
  intros Hcreate. unfold createSnapshots.
  apply bind_Forall; [apply log_Print_Forall | intros _ _].
  apply bind_Forall.
  - apply runTasks_Forall. intros [i disk]. unfold createTask.
    apply bind_Forall; [apply log_Print_Forall | intros _ _].
    apply bind_Forall.
    + unfold createSnapshotForDisk.
      destruct (snapshotName (Name disk) (Id disk) (clock world i)) as [name|];
        [|constructor].
      destruct dryRun; [constructor|].
      apply bind_Forall; [now apply getCommandResult_Forall, Hcreate|].
      intros [cmdOut err] _. constructor.
    + intros [snapshot [err|]] _; [|constructor].
      apply bind_Forall; [repeat constructor; apply P_Log | intros; constructor].
  - intros chan _.
    apply bind_Forall; [apply attachSnapshots_Forall | intros [ds ch] _].
    apply bind_Forall; [apply log_Print_Forall | intros _ _].
    apply bind_Forall; [apply log_Print_Forall | intros; constructor].
Qed.

(** Likewise for the retention phase and the deletion commands. *)
Lemma deleteOldSnapshots_Forall (limit : Z) (dryRun : bool) (disks : list Disk) :
  (dryRun = false -> forall snapshot, P (Command "gcloud" (deleteSnapshotArgs snapshot))) ->
  Forall P (events (deleteOldSnapshots world limit dryRun disks)).
Proof.
  intros Hdelete. unfold deleteOldSnapshots.
  apply bind_Forall; [apply log_Print_Forall | intros _ _].
  apply bind_Forall.
  - apply runTasks_Forall. intros [i disk]. unfold cleanTask.
    destruct (lenOf (Snapshots disk) - limit <=? 0); [constructor|].
    apply bind_Forall; [apply log_Print_Forall | intros _ _].
    destruct (snapshotsToDelete limit (Snapshots disk)) as [toDelete|]; [|constructor].
    apply bind_Forall.
    + apply runTasks_Forall. intros s. unfold deleteTask.
      apply bind_Forall.
      * unfold deleteSnapshot. destruct dryRun; [constructor|].
        apply bind_Forall; [now apply getCommandResult_Forall, Hdelete|].
        intros [cmdOut err] _. constructor.
      * intros [err|] _; [|constructor].
        apply bind_Forall; [repeat constructor; apply P_Log | intros; constructor].
    + intros chan _. apply bind_Forall; [|intros; constructor].
      generalize (Z.to_nat (lenOf (Snapshots disk) - limit)). intros steps.
      revert chan. induction steps as [|steps IH]; intros chan; [constructor|].
      cbn [logDeleted].
      apply bind_Forall; [destruct chan; constructor | intros [s ch] _].
      apply bind_Forall; [apply log_Print_Forall | intros _ _; apply IH].
  - intros chan _. apply bind_Forall.
    + generalize (List.length disks). intros steps.
      revert chan. induction steps as [|steps IH]; intros chan; [constructor|].
      cbn [reportCleaned].
      apply bind_Forall; [destruct chan; constructor | intros [d ch] _].
      apply bind_Forall; [apply log_Print_Forall | intros _ _; apply IH].
    + intros _ _. apply bind_Forall; [apply log_Print_Forall | intros _ _].
      apply log_Print_Forall.
Qed.

End Events.

(** ** A creation that fails *)

Lemma setAt_length {A} (l : list A) : forall i x, List.length (setAt i x l) = List.length l.
Proof.
  induction l as [|y l IH]; intros [|i] x; simpl; auto.
Qed.

Lemma Forall_setAt {A} (P : A -> Prop) (l : list A) :
  forall i x, Forall P l -> P x -> Forall P (setAt i x l).
Proof.
  induction l as [|y l IH]; intros [|i] x Hl Hx; simpl; auto.
  - inversion Hl; subst. now constructor.
  - inversion Hl; subst. constructor; auto.
Qed.

Lemma Exists_setAt {A} (P : A -> Prop) (l : list A) :
  forall i x y, nth_error l i = Some y -> Exists P l -> (P y -> P x) ->
                Exists P (setAt i x l).
Proof.
  induction l as [|z l IH]; intros [|i] x y Hnth Hex Hxy; simpl in *; try discriminate.
  - injection Hnth as ->. inversion Hex; subst; [left; auto | now right].
  - inversion Hex; subst; [now left | right; eapply IH; eauto].
Qed.

Lemma returned_setAt (l : list Prog) :
  forall i x y, nth_error l i = Some y -> isReturn y = false ->
                returned (setAt i x l) = ((if isReturn x then 1 else 0) + returned l)%nat.
Proof.
  induction l as [|z l IH]; intros [|i] x y Hnth Hy; simpl in *; try discriminate.
  - injection Hnth as ->. rewrite Hy. lia.
  - rewrite (IH i x y Hnth Hy). lia.
Qed.

Lemma returned_app (l1 l2 : list Prog) : returned (l1 ++ l2) = (returned l1 + returned l2)%nat.
Proof.
  induction l1 as [|p l1 IH]; simpl; [reflexivity | rewrite IH; lia].
Qed.

Lemma returned_below (P : Prog -> Prop) (l : list Prog) :
  (forall p, P p -> isReturn p = false) -> Exists P l ->
  (returned l < List.length l)%nat.
Proof.
  intros HP. assert (Hle : forall l', (returned l' <= List.length l')%nat).
  { induction l' as [|p l' IH]; simpl; [lia | destruct (isReturn p); lia]. }
  induction 1 as [p l Hp|p l Hex IH]; simpl.
  - rewrite (HP p Hp). specialize (Hle l). lia.
  - destruct (isReturn p); lia.
Qed.

Lemma sumWeight_setAt (world : World) (l : list Prog) :
  forall i x y, nth_error l i = Some y ->
                (sumWeight world (setAt i x l) + weight world y
                 = sumWeight world l + weight world x)%nat.
Proof.
  induction l as [|z l IH]; intros [|i] x y Hnth; simpl in *; try discriminate.
  - injection Hnth as ->. lia.
  - specialize (IH i x y Hnth). lia.
Qed.

Lemma sumWeight_app (world : World) (l1 l2 : list Prog) :
  sumWeight world (l1 ++ l2) = (sumWeight world l1 + sumWeight world l2)%nat.
Proof.
  induction l1 as [|p l1 IH]; simpl; [reflexivity | rewrite IH; lia].
Qed.

Lemma nth_error_nth_default {A} (l : list A) (i : nat) (x d : A) :
  nth_error l i = Some x -> nth i l d = x.
Proof.
  revert i. induction l as [|y l IH]; intros [|i] E; simpl in *; try discriminate.
  - now injection E.
  - now apply IH.
Qed.

Section Scheduler.

Variable world : World.

Lemma readyFrom_In (c : Channels) (threads : list Prog) :
  forall start i,
    In i (readyFrom world start threads c)
    <-> (start <= i)%nat
        /\ exists p, nth_error threads (i - start) = Some p /\ ready world p c = true.
Proof.
  induction threads as [|q threads IH]; intros start i; simpl.
  - split; [tauto|]. intros [_ [p [H _]]]. now destruct (i - start)%nat.
  - assert (Hrest : In i (readyFrom world (S start) threads c)
                    <-> (start < i)%nat
                        /\ exists p, nth_error (q :: threads) (i - start) = Some p
                                     /\ ready world p c = true).
    { rewrite IH. split.
      - intros [Hle [p [Hnth Hr]]]. split; [lia|]. exists p. split; [|exact Hr].
        replace (i - start)%nat with (S (i - S start)) by lia. exact Hnth.
      - intros [Hlt [p [Hnth Hr]]]. split; [lia|]. exists p. split; [|exact Hr].
        replace (i - start)%nat with (S (i - S start)) in Hnth by lia. exact Hnth. }
    destruct (ready world q c) eqn:Eq.
    + simpl. rewrite Hrest. split.
      * intros [<-|[Hlt H]].
        -- split; [lia|]. exists q. rewrite Nat.sub_diag. now split.
        -- split; [lia | exact H].
      * intros [Hle [p [Hnth Hr]]].
        destruct (Nat.eq_dec start i) as [->|Hne]; [now left|].
        right. split; [lia|]. now exists p.
    + rewrite Hrest. split.
      * intros [Hlt H]. split; [lia | exact H].
      * intros [Hle [p [Hnth Hr]]].
        destruct (Nat.eq_dec start i) as [->|Hne].
        -- rewrite Nat.sub_diag in Hnth. simpl in Hnth. injection Hnth as <-.
           rewrite Eq in Hr. discriminate.
        -- split; [lia|]. now exists p.
Qed.

(** The scheduler picks a goroutine that can go on. *)
Lemma pickThread_ready (pick : nat) (threads : list Prog) (c : Channels) (i : nat) :
  pickThread world pick threads c = Some i ->
  exists p, nth_error threads i = Some p /\ ready world p c = true.
Proof.
  unfold pickThread.
  destruct (readyFrom world O threads c) as [|j rest] eqn:E; [discriminate|].
  intros H. injection H as <-.
  assert (Hin : In (nth (Nat.modulo pick (List.length (j :: rest))) (j :: rest) O)
                   (readyFrom world O threads c)).
  { rewrite E. apply nth_In. apply Nat.mod_upper_bound. discriminate. }
  apply readyFrom_In in Hin. destruct Hin as [_ [p [Hnth Hr]]].
  rewrite Nat.sub_0_r in Hnth. now exists p.
Qed.

(** It picks one whenever one can go on. *)
Lemma pickThread_some (pick : nat) (threads : list Prog) (c : Channels) (k : nat)
    (p : Prog) :
  nth_error threads k = Some p -> ready world p c = true ->
  exists i, pickThread world pick threads c = Some i.
Proof.
  intros Hnth Hr. unfold pickThread.
  destruct (readyFrom world O threads c) as [|j rest] eqn:E.
  - exfalso. assert (Hin : In k (readyFrom world O threads c)).
    { apply readyFrom_In. split; [lia|]. exists p. now rewrite Nat.sub_0_r. }
    rewrite E in Hin. contradiction.
  - eexists. reflexivity.
Qed.

Lemma Doomed_Creator (p : Prog) : Doomed world p -> Creator world p.
Proof.
  induction 1; now constructor.
Qed.

Lemma Doomed_ready (p : Prog) (c : Channels) : Doomed world p -> ready world p c = true.
Proof. now destruct 1. Qed.

Lemma Doomed_not_returned (p : Prog) : Doomed world p -> isReturn p = false.
Proof. now destruct 1. Qed.

Lemma Creator_not_returned (p : Prog) : Creator world p -> isReturn p = false.
Proof. now destruct 1. Qed.

End Scheduler.

Section CreationFailure.

Variable world : World.

Lemma runPool_step (fuel : nat) (picks : list nat) (main : Prog) (others : list Prog)
    (c : Channels) (i : nat) (p : Prog) :
  isReturn main = false ->
  pickThread world (hd O picks) (main :: others) c = Some i ->
  nth_error (main :: others) i = Some p ->
  runPool world (S fuel) picks (main :: others) c
  = match advance world p c with
    | Waits | Ends => ([], Some Deadlock)
    | Stops evs how => (evs, Some how)
    | Goes evs next started c' =>
        (evs ++ fst (runPool world fuel (tl picks)
                       (setAt i next (main :: others) ++ started) c'),
         snd (runPool world fuel (tl picks)
                (setAt i next (main :: others) ++ started) c'))
    end.
Proof.
  intros Hmain Hpick Hnth. cbn [runPool hd]. rewrite Hmain, Hpick.
  rewrite (nth_error_nth_default _ _ _ Return Hnth). reflexivity.
Qed.

(** The goroutine of a disk, in a run that is not dry. *)
Lemma createGoroutine_Creator (diskIndex : nat) (disk : Disk) :
  Creator world (createGoroutine world false diskIndex disk)
  /\ (weight world (createGoroutine world false diskIndex disk) <= 5)%nat.
Proof.
  unfold createGoroutine, createSnapshotForDiskT.
  destruct (snapshotName_returns (Name disk) (Id disk) (clock world diskIndex))
    as [name E].
  rewrite E. unfold getCommandResultT, log_FatalT. cbn [weight]. cbv beta.
  destruct (snd (CombinedOutput world "gcloud" (createSnapshotArgs disk name)))
    as [err|] eqn:Eerr.
  - split.
    + apply creator_print, creator_exec; [reflexivity|]. rewrite Eerr.
      apply creator_print, creator_print, creator_exit.
    + cbn [weight]. lia.
  - split.
    + apply creator_print, creator_exec; [reflexivity|]. rewrite Eerr.
      cbn [snd fst]. apply creator_send.
    + cbn [snd fst weight]. lia.
Qed.

(** The goroutine of a disk whose snapshot cannot be created. *)
Lemma createGoroutine_Doomed (diskIndex : nat) (disk : Disk) (name err : string) :
  snapshotName (Name disk) (Id disk) (clock world diskIndex) = Some name ->
  snd (CombinedOutput world "gcloud" (createSnapshotArgs disk name)) = Some err ->
  Doomed world (createGoroutine world false diskIndex disk).
Proof.
  intros Hname Herr. unfold createGoroutine, createSnapshotForDiskT.
  rewrite Hname. unfold getCommandResultT, log_FatalT.
  apply doomed_print, doomed_exec; [reflexivity|]. rewrite Herr. cbn [snd].
  apply doomed_print, doomed_print, doomed_exit.
Qed.

Variable disks : list Disk.
Variable failing : nat.
Variable failingDisk : Disk.
Variable next : list Disk -> Prog.

Hypothesis failing_disk : nth_error disks failing = Some failingDisk.
Hypothesis failing_doomed : Doomed world (createGoroutine world false failing failingDisk).

Lemma mainOf_Starting :
  mainOf world disks next Starting
  = Print "Creating snapshots..." (mainOf world disks next (Spawning O)).
Proof.
  unfold mainOf, createSnapshotsT, afterAttach. now rewrite Nat.sub_0_r.
Qed.

Lemma mainOf_Spawning (diskIndex : nat) :
  (diskIndex < List.length disks)%nat ->
  exists disk,
    nth_error disks diskIndex = Some disk
    /\ mainOf world disks next (Spawning diskIndex)
       = Go (createGoroutine world false diskIndex disk)
           (mainOf world disks next (nextPhase disks diskIndex)).
Proof.
  intros Hlt. destruct (nth_error disks diskIndex) as [disk|] eqn:E.
  2:{ apply nth_error_None in E. lia. }
  exists disk. split; [reflexivity|]. unfold mainOf, nextPhase.
  replace (List.length disks - diskIndex)%nat with (S (List.length disks - S diskIndex))
    by lia.
  cbn [spawnCreations]. rewrite E. f_equal.
  destruct (Nat.ltb (S diskIndex) (List.length disks)) eqn:Elt.
  - reflexivity.
  - apply Nat.ltb_ge in Elt.
    replace (List.length disks - S diskIndex)%nat with O by lia.
    now rewrite Nat.sub_0_r.
Qed.

Lemma mainOf_Attaching (diskIndex : nat) (ds : list Disk) :
  (diskIndex < List.length disks)%nat ->
  List.length ds = List.length disks ->
  exists disk,
    mainOf world disks next (Attaching diskIndex ds)
    = ReceiveSnapshot O
        (fun s =>
           mainOf world disks next
             (Printing (S diskIndex)
                (setAt diskIndex (withSnapshots disk (s :: Snapshots disk)) ds)
                ("Created snapshot " ++ Snapshot_Name s))).
Proof.
  intros Hlt Hlen. destruct (nth_error ds diskIndex) as [disk|] eqn:E.
  2:{ apply nth_error_None in E. lia. }
  exists disk. unfold mainOf.
  replace (List.length disks - diskIndex)%nat with (S (List.length disks - S diskIndex))
    by lia.
  cbn [attachSnapshotsT]. now rewrite E.
Qed.

Lemma CreationInv_received (phase : Phase) (others : list Prog) (c : Channels) :
  CreationInv world disks failing phase others c ->
  match phase with
  | Attaching r _ | Printing r _ _ => (r < List.length disks)%nat
  | _ => True
  end.
Proof.
  intros [_ [Hcount Hphase]].
  destruct phase as [|j|r ds|r ds line]; try exact I;
    destruct Hphase as [Hlen [_ Hex]];
    pose proof (returned_below _ _ (Doomed_not_returned world) Hex);
    cbn [received] in Hcount; lia.
Qed.

(** All along the creation phase some goroutine can go on. *)
Lemma CreationInv_ready (phase : Phase) (others : list Prog) (c : Channels)
    (pick : nat) :
  CreationInv world disks failing phase others c ->
  exists i, pickThread world pick (mainOf world disks next phase :: others) c = Some i.
Proof.
  intros Hinv. pose proof (CreationInv_received _ _ _ Hinv) as Hr.
  destruct Hinv as [_ [_ Hphase]].
  destruct phase as [|j|r ds|r ds line].
  - apply pickThread_some with (k := O) (p := mainOf world disks next Starting);
      [reflexivity | now rewrite mainOf_Starting].
  - destruct Hphase as [_ [Hlt _]].
    destruct (mainOf_Spawning j Hlt) as [disk [_ E]].
    apply pickThread_some with (k := O) (p := mainOf world disks next (Spawning j));
      [reflexivity | now rewrite E].
  - destruct Hphase as [_ [_ Hex]]. apply Exists_exists in Hex.
    destruct Hex as [p [Hin Hp]]. apply In_nth_error in Hin. destruct Hin as [k Hk].
    apply pickThread_some with (k := S k) (p := p); [exact Hk | now apply Doomed_ready].
  - apply pickThread_some
      with (k := O) (p := mainOf world disks next (Printing r ds line));
      reflexivity.
Qed.

Lemma mainOf_not_returned (phase : Phase) (others : list Prog) (c : Channels) :
  CreationInv world disks failing phase others c ->
  isReturn (mainOf world disks next phase) = false.
Proof.
  intros Hinv. pose proof (CreationInv_received _ _ _ Hinv) as Hr.
  destruct Hinv as [_ [_ Hphase]].
  destruct phase as [|j|r ds|r ds line].
  - now rewrite mainOf_Starting.
  - destruct Hphase as [_ [Hlt _]].
    destruct (mainOf_Spawning j Hlt) as [disk [_ E]]. now rewrite E.
  - destruct Hphase as [_ [Hlen _]].
    destruct (mainOf_Attaching r ds Hr Hlen) as [disk E]. now rewrite E.
  - reflexivity.
Qed.

Lemma failing_in_range : (failing < List.length disks)%nat.
Proof. apply nth_error_Some. now rewrite failing_disk. Qed.

(** A goroutine of the creation phase executes a statement. *)
Lemma CreationInv_update (phase : Phase) (others : list Prog) (c c' : Channels)
    (k : nat) (p p' : Prog) :
  CreationInv world disks failing phase others c ->
  nth_error others k = Some p ->
  isReturn p = false ->
  Creator world p' \/ p' = Return ->
  (Doomed world p -> Doomed world p') ->
  (List.length (snapshotChannel c' O) + received phase
   <= (if isReturn p' then 1 else 0) + returned others)%nat ->
  CreationInv world disks failing phase (setAt k p' others) c'.
Proof.
  intros [Hall [_ Hphase]] Hnth Hp Hp' Hdoomed Hcount.
  split; [now apply Forall_setAt|]. split.
  - now rewrite (returned_setAt others k p' p Hnth Hp).
  - destruct phase as [|j|r ds|r ds line]; rewrite ?setAt_length.
    + subst others. now destruct k.
    + destruct Hphase as [Hlen [Hlt Hex]]. repeat split; auto.
      intros Hj. apply (Exists_setAt _ _ k p' p Hnth (Hex Hj) Hdoomed).
    + destruct Hphase as [Hlen [Hds Hex]]. repeat split; auto.
      apply (Exists_setAt _ _ k p' p Hnth Hex Hdoomed).
    + destruct Hphase as [Hlen [Hds Hex]]. repeat split; auto.
      apply (Exists_setAt _ _ k p' p Hnth Hex Hdoomed).
Qed.

(** The creation phase of a run in which the snapshot of one disk cannot be
    created: whatever the interleaving, [main] never gets past the reads of
    the channel, no deletion is executed, and the process exits with status
    1. *)
Lemma creation_never_completes (fuel : nat) :
  forall (picks : list nat) (phase : Phase) (others : list Prog) (c : Channels),
    CreationInv world disks failing phase others c ->
    Forall (fun e => isDelete e = false)
      (fst (runPool world fuel picks (mainOf world disks next phase :: others) c))
    /\ ((mainWeight (List.length disks) phase + sumWeight world others < fuel)%nat ->
        snd (runPool world fuel picks (mainOf world disks next phase :: others) c)
        = Some (Exit 1)).
Proof.
  induction fuel as [|fuel IH]; intros picks phase others c Hinv.
  - split; [constructor | lia].
  - pose proof failing_in_range as Hrange.
    pose proof (mainOf_not_returned phase others c Hinv) as Hmain.
    pose proof (CreationInv_received phase others c Hinv) as Hreceived.
    destruct (CreationInv_ready phase others c (hd O picks) Hinv) as [i Hpick].
    destruct (pickThread_ready world _ _ _ _ Hpick) as [p [Hnth Hready]].
    rewrite (runPool_step fuel picks _ others c i p Hmain Hpick Hnth).
    destruct i as [|k].
    + cbn [nth_error] in Hnth. injection Hnth as <-.
      destruct Hinv as [Hall [Hcount Hphase]].
      destruct phase as [|j|r ds|r ds line].
      * rewrite mainOf_Starting. cbn [advance setAt app]. rewrite app_nil_r.
        destruct (IH (tl picks) (Spawning O) others c) as [Hev Hout].
        { split; [exact Hall|]. split; [exact Hcount|]. subst others.
          repeat split; lia. }
        split; [constructor; [reflexivity | exact Hev]|].
        intros Hfuel. apply Hout. cbn [mainWeight] in *. lia.
      * destruct Hphase as [Hlen [Hlt Hex]].
        destruct (mainOf_Spawning j Hlt) as [disk [Hdisk E]]. rewrite E.
        cbn [advance setAt app].
        destruct (createGoroutine_Creator j disk) as [Hcreator Hweight].
        assert (Hex' : (failing < S j)%nat ->
                       Exists (Doomed world)
                         (others ++ [createGoroutine world false j disk])).
        { intros Hj. apply Exists_app.
          destruct (Nat.eq_dec failing j) as [->|Hne].
          - right. constructor. rewrite failing_disk in Hdisk.
            injection Hdisk as <-. exact failing_doomed.
          - left. apply Hex. lia. }
        destruct (IH (tl picks) (nextPhase disks j)
                    (others ++ [createGoroutine world false j disk]) c)
          as [Hev Hout].
        { split; [apply Forall_app; split; [exact Hall | constructor; [now left | constructor]]|].
          split.
          - rewrite returned_app. cbn [returned].
            rewrite (Creator_not_returned world _ Hcreator).
            unfold nextPhase. cbn [received] in *.
            destruct (Nat.ltb (S j) (List.length disks)); cbn [received]; lia.
          - unfold nextPhase. rewrite length_app. cbn [List.length].
            destruct (Nat.ltb (S j) (List.length disks)) eqn:Elt.
            + apply Nat.ltb_lt in Elt. repeat split; [lia | exact Elt | exact Hex'].
            + apply Nat.ltb_ge in Elt. repeat split; [lia|]. apply Hex'. lia. }
        split; [exact Hev|].
        intros Hfuel. apply Hout. rewrite sumWeight_app. cbn [sumWeight].
        unfold nextPhase. cbn [mainWeight] in *.
        destruct (Nat.ltb (S j) (List.length disks)) eqn:Elt; cbn [mainWeight].
        -- apply Nat.ltb_lt in Elt. lia.
        -- apply Nat.ltb_ge in Elt. lia.
      * destruct Hphase as [Hlen [Hds Hex]].
        destruct (mainOf_Attaching r ds Hreceived Hds) as [disk E].
        rewrite E in Hready |- *. unfold ready in Hready. cbn [advance] in Hready |- *.
        destruct (snapshotChannel c O) as [|s waiting] eqn:Echan; [discriminate|].
        cbn [setAt app]. rewrite app_nil_r.
        destruct (IH (tl picks)
                    (Printing (S r)
                       (setAt r (withSnapshots disk (s :: Snapshots disk)) ds)
                       ("Created snapshot " ++ Snapshot_Name s))
                    others (popSnapshot O c)) as [Hev Hout].
        { split; [exact Hall|]. split.
          - cbn [popSnapshot snapshotChannel Nat.eqb received] in *.
            rewrite Echan. cbn [tl List.length] in *. lia.
          - rewrite setAt_length. now repeat split. }
        split; [exact Hev|].
        intros Hfuel. apply Hout. cbn [mainWeight] in *. lia.
      * destruct Hphase as [Hlen [Hds Hex]].
        cbn [mainOf advance setAt app]. rewrite app_nil_r.
        destruct (IH (tl picks) (Attaching r ds) others c) as [Hev Hout].
        { split; [exact Hall|]. split; [exact Hcount | now repeat split]. }
        split; [constructor; [reflexivity | exact Hev]|].
        intros Hfuel. apply Hout. cbn [mainWeight] in *. lia.
    + cbn [nth_error] in Hnth.
      assert (Hp : Creator world p).
      { destruct Hinv as [Hall _]. rewrite Forall_forall in Hall.
        destruct (Hall p (nth_error_In _ _ Hnth)) as [Hc| ->]; [exact Hc|].
        discriminate. }
      pose proof (Creator_not_returned world p Hp) as Hnot.
      pose proof (sumWeight_setAt world others k) as Hsum.
      pose proof Hinv as [_ [Hcount _]].
      destruct Hp as [line nx Hnx|command args nx Hargs Hnx|nx|s];
        cbn [advance setAt app]; rewrite ?app_nil_r.
      * destruct (IH (tl picks) phase (setAt k nx others) c) as [Hev Hout].
        { apply (CreationInv_update phase others c c k (Print line nx) nx Hinv Hnth Hnot).
          - now left.
          - intros Hd. now inversion Hd.
          - rewrite (Creator_not_returned world nx Hnx). lia. }
        split; [constructor; [reflexivity | exact Hev]|].
        intros Hfuel. apply Hout. specialize (Hsum nx _ Hnth). cbn [weight] in Hsum.
        lia.
      * destruct (IH (tl picks) phase
                    (setAt k (nx (CombinedOutput world command args)) others) c)
          as [Hev Hout].
        { apply (CreationInv_update phase others c c k (Exec command args nx)
                   (nx (CombinedOutput world command args)) Hinv Hnth Hnot).
          - now left.
          - intros Hd. now inversion Hd.
          - rewrite (Creator_not_returned world _ Hnx). lia. }
        split; [constructor; [exact Hargs | exact Hev]|].
        intros Hfuel. apply Hout.
        specialize (Hsum (nx (CombinedOutput world command args)) _ Hnth).
        cbn [weight] in Hsum. lia.
      * split; [constructor | reflexivity].
      * destruct (IH (tl picks) phase (setAt k Return others) (pushSnapshot O s c))
          as [Hev Hout].
        { apply (CreationInv_update phase others c (pushSnapshot O s c) k
                   (SendSnapshot O s Return) Return Hinv Hnth Hnot).
          - now right.
          - intros Hd. inversion Hd.
          - cbn [pushSnapshot snapshotChannel Nat.eqb isReturn].
            rewrite length_app. cbn [List.length]. lia. }
        split; [exact Hev|].
        intros Hfuel. apply Hout. specialize (Hsum Return _ Hnth).
        cbn [weight] in Hsum. lia.
Qed.

End CreationFailure.

Section CreationFailureRun.

Variable world : World.

(** The inventory of a run that finds disks and lists their snapshots. *)
Lemma inventory_returned (filter : string) (disks0 disks : list Disk) :
  outcome (getDisksToSnapshot world filter) = Ret (disks0, None) ->
  outcome (loadSnapshots world None disks0) = Ret disks ->
  disks <> [] ->
  outcome (inventory world filter false) = Ret (Some disks).
Proof.
  intros Hdisks Hload Hne.
  assert (Hnonempty : (lenOf disks0 =? 0) = false).
  { apply loadSnapshots_returned in Hload. subst disks.
    destruct disks0; [now destruct Hne | reflexivity]. }
  unfold inventory. rewrite bind_log, bind_ret, bind_log. cbn [outcome snd].
  rewrite (bind_returned _ _ _ Hdisks). cbn [outcome snd].
  rewrite Hnonempty, bind_log. cbn [outcome snd].
  rewrite (bind_returned _ _ _ Hload). cbn [outcome snd].
  now rewrite bind_log.
Qed.

Lemma inventory_Forall (P : Event -> Prop) (filter : string) (dryRun : bool) :
  (forall line, P (Log line)) ->
  (forall filter, P (Command "gcloud" (listDisksArgs filter))) ->
  (forall disk, P (Command "gcloud" (listSnapshotsArgs disk))) ->
  Forall P (events (inventory world filter dryRun)).
Proof.
  intros HLog Hdisks Hsnapshots. unfold inventory.
  apply bind_Forall; [now apply log_Print_Forall | intros _ _].
  apply bind_Forall.
  { destruct dryRun; [|constructor].
    apply bind_Forall; [now apply log_Print_Forall | intros _ _].
    now apply log_Print_Forall. }
  intros _ _.
  apply bind_Forall; [now apply log_Print_Forall | intros _ _].
  apply bind_Forall; [now apply getDisksToSnapshot_Forall|].
  intros [ds [err|]] _.
  - apply bind_Forall; [repeat constructor; apply HLog | intros; constructor].
  - destruct (lenOf ds =? 0).
    + apply bind_Forall; [now apply log_Print_Forall | intros; constructor].
    + apply bind_Forall; [now apply log_Print_Forall | intros _ _].
      apply bind_Forall; [now apply loadSnapshots_Forall | intros ds' _].
      apply bind_Forall; [now apply log_Print_Forall | intros; constructor].
Qed.

(** C7: when the creation of the snapshot of one of the disks fails, then,
    however the statements of [main] and of the goroutines are interleaved,
    the run executes no deletion command, and it is over, the process exiting
    with status 1, within [8 * len(disks) + 1] statements of the creation
    phase: [main] is still reading [snapshotsCreated], to which the goroutine
    of that disk never writes. *)
Theorem creation_failure_stops_before_deletion (filter : string) (limit : Z)
    (disks0 disks : list Disk) (diskIndex : nat) (disk : Disk) (name err : string) :
  outcome (getDisksToSnapshot world filter) = Ret (disks0, None) ->
  outcome (loadSnapshots world None disks0) = Ret disks ->
  nth_error disks diskIndex = Some disk ->
  snapshotName (Name disk) (Id disk) (clock world diskIndex) = Some name ->
  snd (CombinedOutput world "gcloud" (createSnapshotArgs disk name)) = Some err ->
  forall (picks : list nat) (fuel : nat),
    Forall (fun e => isDelete e = false)
      (fst (mainThreads world filter limit false fuel picks))
    /\ ((8 * List.length disks + 1 < fuel)%nat ->
        snd (mainThreads world filter limit false fuel picks) = Some (Exit 1)).
Proof.
  intros Hdisks Hload Hnth Hname Herr picks fuel.
  assert (Hne : disks <> []) by (intros ->; now destruct diskIndex).
  unfold mainThreads.
  rewrite (inventory_returned filter disks0 disks Hdisks Hload Hne).
  cbn [fst snd].
  set (next := fun disks' : list Disk => deleteOldSnapshotsT limit false disks' Return).
  change (orchestrate world filter limit false disks)
    with (mainOf world disks next Starting).
  destruct (creation_never_completes world disks diskIndex disk next Hnth
              (createGoroutine_Doomed world diskIndex disk name err Hname Herr)
              fuel picks Starting [] noValues) as [Hev Hout].
  { split; [constructor|]. split; [cbn; lia | reflexivity]. }
  split.
  - apply Forall_app. split; [|exact Hev].
    apply inventory_Forall; reflexivity.
  - intros Hfuel. apply Hout. cbn [mainWeight sumWeight]. lia.
Qed.

End CreationFailureRun.

(** ** Dry runs *)

Lemma report_bind {A B} (m1 m2 : M A) (k1 k2 : A -> M B) :
  report m1 = report m2 ->
  (forall a, report (k1 a) = report (k2 a)) ->
  report (bind m1 k1) = report (bind m2 k2).
Proof.
  unfold report. intros Hm Hk. injection Hm as Hlog Hout.
  unfold bind. rewrite Hout.
  destruct (outcome m2) as [a| | |]; cbn [events outcome fst snd]; try now rewrite Hlog.
  specialize (Hk a). injection Hk as Hklog Hkout.
  now rewrite !logLines_app, Hlog, Hklog, Hkout.
Qed.

Lemma closes_bind {A B} (closing : list string) (m1 m2 : M A) (k1 k2 : A -> M B) :
  report m1 = report m2 ->
  (forall a, closes closing (k1 a) (k2 a)) ->
  closes closing (bind m1 k1) (bind m2 k2).
Proof.
  unfold report, closes. intros Hm Hk. injection Hm as Hlog Hout.
  unfold bind. rewrite Hout.
  destruct (outcome m2) as [a| | |]; cbn [events outcome fst snd];
    try (split; [reflexivity | exists []; rewrite app_nil_r; now split; [|left]]).
  destruct (Hk a) as [Hkout [c [Hklog Hc]]].
  split; [exact Hkout|]. exists c. split; [|exact Hc].
  now rewrite !logLines_app, Hlog, Hklog, app_assoc.
Qed.

Lemma closes_same {A} (closing : list string) (m : M A) : closes closing m m.
Proof.
  split; [reflexivity|]. exists []. rewrite app_nil_r. split; [reflexivity | now left].
Qed.

Lemma report_forLoop {S} (body1 body2 : nat -> S -> M S) :
  (forall i s, report (body1 i s) = report (body2 i s)) ->
  forall steps i s, report (forLoop steps i body1 s) = report (forLoop steps i body2 s).
Proof.
  intros Hbody. induction steps as [|steps IH]; intros i s; [reflexivity|].
  cbn [forLoop]. apply report_bind; [apply Hbody | intros s'; apply IH].
Qed.

Lemma report_runTasks {A B} (task1 task2 : A -> M (option B)) :
  (forall a, report (task1 a) = report (task2 a)) ->
  forall tasks chan, report (runTasks task1 tasks chan) = report (runTasks task2 tasks chan).
Proof.
  intros Htask. induction tasks as [|a tasks IH]; intros chan; [reflexivity|].
  cbn [runTasks]. apply report_bind; [apply Htask | intros sent; apply IH].
Qed.

Section DryRun.

Variable world : World.

Hypothesis creations_succeed :
  forall disk name,
    snd (CombinedOutput world "gcloud" (createSnapshotArgs disk name)) = None.
Hypothesis deletions_succeed :
  forall snapshot,
    snd (CombinedOutput world "gcloud" (deleteSnapshotArgs snapshot)) = None.

Lemma createSnapshotForDisk_report (now : Time) (disk : Disk) :
  report (createSnapshotForDisk world now disk true)
  = report (createSnapshotForDisk world now disk false).
Proof.
  unfold createSnapshotForDisk.
  destruct (snapshotName (Name disk) (Id disk) now) as [name|]; [|reflexivity].
  rewrite getCommandResult_succeeded by apply creations_succeed. reflexivity.
Qed.

Lemma deleteSnapshot_report (snapshot : Snapshot) :
  report (deleteSnapshot world snapshot true) = report (deleteSnapshot world snapshot false).
Proof.
  unfold deleteSnapshot.
  rewrite getCommandResult_succeeded by apply deletions_succeed. reflexivity.
Qed.

(** The creation phase of a dry run logs the same lines, with the same
    snapshot names, and returns the same disks. *)
Lemma createSnapshots_report (disks : list Disk) :
  report (createSnapshots world true disks) = report (createSnapshots world false disks).
Proof.
  unfold createSnapshots.
  apply report_bind; [reflexivity | intros _].
  apply report_bind; [|reflexivity].
  apply report_runTasks. intros [i disk]. unfold createTask.
  apply report_bind; [reflexivity | intros _].
  apply report_bind; [apply createSnapshotForDisk_report | reflexivity].
Qed.

(** So does the retention phase, with the same counts. *)
Lemma deleteOldSnapshots_report (limit : Z) (disks : list Disk) :
  report (deleteOldSnapshots world limit true disks)
  = report (deleteOldSnapshots world limit false disks).
Proof.
  unfold deleteOldSnapshots.
  apply report_bind; [reflexivity | intros _].
  apply report_bind; [|reflexivity].
  apply report_runTasks. intros [i disk]. unfold cleanTask.
  destruct (lenOf (Snapshots disk) - limit <=? 0); [reflexivity|].
  apply report_bind; [reflexivity | intros _].
  destruct (snapshotsToDelete limit (Snapshots disk)) as [toDelete|]; [|reflexivity].
  apply report_bind; [|reflexivity].
  apply report_runTasks. intros s. unfold deleteTask.
  apply report_bind; [apply deleteSnapshot_report | reflexivity].
Qed.

Lemma main_dry_run_not_mutating (filter : string) (limit : Z) :
  Forall (fun e => isMutating e = false) (events (main world filter limit true)).
Proof.
  unfold main.
  apply bind_Forall; [now apply log_Print_Forall | intros _ _].
  apply bind_Forall.
  { apply bind_Forall; [now apply log_Print_Forall | intros _ _].
    now apply log_Print_Forall. }
  intros _ _.
  apply bind_Forall; [now apply log_Print_Forall | intros _ _].
  apply bind_Forall; [now apply getDisksToSnapshot_Forall|].
  intros [disks [err|]] _; [repeat constructor|].
  destruct (lenOf disks =? 0); [now apply log_Print_Forall|].
  apply bind_Forall; [now apply log_Print_Forall | intros _ _].
  apply bind_Forall; [now apply loadSnapshots_Forall | intros disks1 _].
  apply bind_Forall; [now apply log_Print_Forall | intros _ _].
  apply bind_Forall; [apply createSnapshots_Forall; [reflexivity.. | discriminate]|].
  intros disks2 _.
  apply bind_Forall; [apply deleteOldSnapshots_Forall; [reflexivity.. | discriminate]|].
  intros _ _.
  apply bind_Forall; [now apply log_Print_Forall | intros _ _].
  now apply log_Print_Forall.
Qed.

Lemma main_closes (filter : string) (limit : Z) :
  exists middle middle' : M unit,
    main world filter limit false
    = (Log ("Backup of GCP disks using filter '" ++ filter ++ "'") :: events middle,
       outcome middle)
    /\ main world filter limit true
       = (Log ("Backup of GCP disks using filter '" ++ filter ++ "'")
          :: Log ""
          :: Log ("DRY RUN MODE: nothing is created or deleted " ++ filter)
          :: events middle',
          outcome middle')
    /\ closes [EmptyString;
               ("DRY RUN MODE: nothing has been created or deleted " ++ filter)%string]
              middle' middle.
Proof.
  eexists. eexists. split; [|split].
  - unfold main. rewrite bind_log, (bind_ret tt). reflexivity.
  - unfold main. rewrite bind_log.
    match goal with
    | |- context [bind (bind (log_Print ?a) (fun _ => log_Print ?b)) ?k] =>
        change (bind (bind (log_Print a) (fun _ => log_Print b)) k)
          with (Log a :: Log b :: events (k tt), outcome (k tt))
    end.
    cbn [events outcome fst snd]. reflexivity.
  - cbv beta.
    apply closes_bind; [reflexivity | intros _].
    apply closes_bind; [reflexivity | intros [disks [err|]]]; [apply closes_same|].
    destruct (lenOf disks =? 0); [apply closes_same|].
    apply closes_bind; [reflexivity | intros _].
    apply closes_bind; [reflexivity | intros disks1].
    apply closes_bind; [reflexivity | intros _].
    apply closes_bind; [apply createSnapshots_report | intros disks2].
    apply closes_bind; [apply deleteOldSnapshots_report | intros _].
    split; [reflexivity|]. eexists. split; [reflexivity | now right].
Qed.

(** C6: a dry run executes no command that creates or deletes a snapshot,
    and it reports what the run that is not dry reports on the same
    inventory (the provider accepting its creations and deletions): the
    creation phase logs the same snapshot names and total and returns the
    same disks, the retention phase logs the same deletions and the same
    count for every disk, and the two runs end alike, the lines logged
    differing only by the notices of the dry run at the beginning and at the
    end. *)
Theorem dry_run_same_report (filter : string) (limit : Z) :
  Forall (fun e => isMutating e = false) (events (main world filter limit true))
  /\ (forall disks,
         report (createSnapshots world true disks)
         = report (createSnapshots world false disks))
  /\ (forall disks,
         report (deleteOldSnapshots world limit true disks)
         = report (deleteOldSnapshots world limit false disks))
  /\ outcome (main world filter limit true) = outcome (main world filter limit false)
  /\ exists first middle closing,
      logLines (events (main world filter limit false)) = first :: middle
      /\ logLines (events (main world filter limit true))
         = first :: EmptyString
           :: ("DRY RUN MODE: nothing is created or deleted " ++ filter)%string
           :: middle ++ closing
      /\ (closing = []
          \/ closing = [EmptyString;
                        ("DRY RUN MODE: nothing has been created or deleted "
                         ++ filter)%string]).
Proof.
  split; [apply main_dry_run_not_mutating|].
  split; [apply createSnapshots_report|].
  split; [apply deleteOldSnapshots_report|].
  destruct (main_closes filter limit) as [middle [middle' [Efalse [Etrue Hcl]]]].
  destruct Hcl as [Hout [c [Hlog Hc]]].
  rewrite Efalse, Etrue. cbn [outcome events fst snd].
  split; [exact Hout|].
  exists ("Backup of GCP disks using filter '" ++ filter ++ "'")%string,
         (logLines (events middle)), c.
  cbn [logLines]. rewrite Hlog. now repeat split.
Qed.

End DryRun.

(** ** The theorems at work on the sample worlds *)

Lemma creation_prepends_one_snapshot_witness :
  exists created,
    nth_error [mkDisk "db" "42" "europe-west1-b"
                 (mkSnapshot "db-42-202401151230" "" :: Demo.threeSnapshots)] 0
    = Some (withSnapshots (mkDisk "db" "42" "europe-west1-b" Demo.threeSnapshots)
              (created :: Demo.threeSnapshots)).
Proof.
  destruct (creation_prepends_one_snapshot (Demo.world Demo.threeSnapshots) true
              [mkDisk "db" "42" "europe-west1-b" Demo.threeSnapshots]
              [mkDisk "db" "42" "europe-west1-b"
                 (mkSnapshot "db-42-202401151230" "" :: Demo.threeSnapshots)])
    as [_ H].
  - vm_compute. reflexivity.
  - destruct (H O (mkDisk "db" "42" "europe-west1-b" Demo.threeSnapshots) eq_refl)
      as [created [E _]].
    exists created. exact E.
Defined.

Lemma creation_failure_stops_before_deletion_witness :
  Forall (fun e => isDelete e = false)
    (fst (mainThreads Demo.oneFailing "" 1 false 40 [2; 1; 0; 3; 1; 2; 0; 1]%nat))
  /\ snd (mainThreads Demo.oneFailing "" 1 false 40 [2; 1; 0; 3; 1; 2; 0; 1]%nat)
     = Some (Exit 1).
Proof.
  destruct (creation_failure_stops_before_deletion Demo.oneFailing "" 1
              [Demo.disk; Demo.otherDisk]
              [loaded Demo.oneFailing Demo.disk; loaded Demo.oneFailing Demo.otherDisk]
              1 (loaded Demo.oneFailing Demo.otherDisk)
              "cache-77-202401151230" "exit status 1"
              ltac:(vm_compute; reflexivity) ltac:(vm_compute; reflexivity)
              ltac:(reflexivity) ltac:(vm_compute; reflexivity) ltac:(reflexivity)
              [2; 1; 0; 3; 1; 2; 0; 1]%nat 40%nat) as [Hev Hout].
  split; [exact Hev | apply Hout; simpl; lia].
Defined.

Lemma dry_run_same_report_witness :
  outcome (main (Demo.world Demo.threeSnapshots) "name = db" 2 true)
  = outcome (main (Demo.world Demo.threeSnapshots) "name = db" 2 false).
Proof.
  destruct (dry_run_same_report (Demo.world Demo.threeSnapshots)
              (fun _ _ => eq_refl) (fun _ => eq_refl) "name = db" 2)
    as [_ [_ [_ [H _]]]].
  exact H.
Defined.

(** ** The two embeddings on the sample worlds

    With the disks, the limit and the interleaving for which the run of
    [Demo.oneFailing] stops in the creation phase, the run in which both
    creations succeed goes on to the retention phase and deletes snapshots. *)
Lemma successful_creations_reach_deletion :
  snd (mainThreads Demo.twoDisks "" 1 false 200 [2; 1; 0; 3; 1; 2; 0; 1]%nat)
  = Some (Ret tt)
  /\ existsb isDelete
       (fst (mainThreads Demo.twoDisks "" 1 false 200 [2; 1; 0; 3; 1; 2; 0; 1]%nat))
     = true.
Proof. split; vm_compute; reflexivity. Qed.

(** When the scheduler always lets the first goroutine that can go on do so,
    the statement-by-statement run executes the commands, logs the lines and
    ends as the run in which every goroutine runs to its end at once: on a
    run that succeeds, on a run whose creation fails, on a run that panics. *)
Lemma interleaved_run_on_success :
  let run := mainThreads (Demo.world Demo.threeSnapshots) "name = db" 2 false 100 [] in
  let m := main (Demo.world Demo.threeSnapshots) "name = db" 2 false in
  (commands (fst run), logLines (fst run), snd run)
  = (commands (events m), logLines (events m), Some (outcome m)).
Proof. vm_compute. reflexivity. Qed.

Lemma interleaved_run_on_creation_failure :
  let run := mainThreads Demo.failing "name = db" 2 false 100 [] in
  let m := main Demo.failing "name = db" 2 false in
  (commands (fst run), logLines (fst run), snd run)
  = (commands (events m), logLines (events m), Some (outcome m)).
Proof. vm_compute. reflexivity. Qed.

Lemma interleaved_run_on_negative_limit :
  let run := mainThreads (Demo.world Demo.threeSnapshots) "name = db" (-1) false 100 [] in
  let m := main (Demo.world Demo.threeSnapshots) "name = db" (-1) false in
  (commands (fst run), logLines (fst run), snd run)
  = (commands (events m), logLines (events m), Some (outcome m)).
Proof. vm_compute. reflexivity. Qed.

(** * Further properties of the program *)

(** ** The shape of a snapshot name *)

Lemma append_assoc (a b c : string) : ((a ++ b) ++ c = a ++ b ++ c)%string.
Proof.
  induction a as [|x a IH]; simpl; [reflexivity | now rewrite IH].
Qed.

Lemma append_empty_r (a : string) : (a ++ "" = a)%string.
Proof.
  induction a as [|x a IH]; simpl; [reflexivity | now rewrite IH].
Qed.

Lemma Replace_other (c : ascii) (rest : string) :
  Ascii.eqb c strings.hyphen = false ->
  strings.ReplaceDoubleHyphen (String c rest)
  = String c (strings.ReplaceDoubleHyphen rest).
Proof.
  intros Hc. destruct rest as [|c' rest]; simpl; [reflexivity | now rewrite Hc].
Qed.

Lemma Replace_single (c : ascii) (rest : string) :
  Ascii.eqb c strings.hyphen = false ->
  strings.ReplaceDoubleHyphen (String strings.hyphen (String c rest))
  = String strings.hyphen (strings.ReplaceDoubleHyphen (String c rest)).
Proof.
  intros Hc.
  change (strings.ReplaceDoubleHyphen (String strings.hyphen (String c rest)))
    with (if Ascii.eqb strings.hyphen strings.hyphen && Ascii.eqb c strings.hyphen
          then String strings.hyphen (strings.ReplaceDoubleHyphen rest)
          else String strings.hyphen (strings.ReplaceDoubleHyphen (String c rest))).
  now rewrite Hc, andb_false_r.
Qed.

(** A string without hyphen: all its bytes count. *)
Lemma no_hyphen_cons (c : ascii) (s : string) :
  countOther (String c s) = String.length (String c s) ->
  Ascii.eqb c strings.hyphen = false /\ countOther s = String.length s.
Proof.
  simpl. pose proof (countOther_length s).
  destruct (Ascii.eqb c strings.hyphen); [lia | split; [reflexivity | lia]].
Qed.

Lemma Replace_no_hyphen_prefix (u v : string) :
  countOther u = String.length u ->
  strings.ReplaceDoubleHyphen (u ++ v) = (u ++ strings.ReplaceDoubleHyphen v)%string.
Proof.
  induction u as [|c u IH]; intros Hu; [reflexivity|].
  apply no_hyphen_cons in Hu. destruct Hu as [Hc Hu].
  change (String c u ++ v)%string with (String c (u ++ v)).
  rewrite Replace_other by exact Hc. simpl. now rewrite IH.
Qed.

Lemma Replace_no_hyphen (u : string) :
  countOther u = String.length u -> strings.ReplaceDoubleHyphen u = u.
Proof.
  intros Hu. rewrite <- (append_empty_r u) at 1.
  rewrite Replace_no_hyphen_prefix by exact Hu. simpl. apply append_empty_r.
Qed.

(** A hyphen in front of a byte that is none stays, whatever comes before
    it, and the replacement starts afresh behind it. *)
Lemma Replace_before_other_aux (c : ascii) (t : string) (n : nat) :
  Ascii.eqb c strings.hyphen = false ->
  forall s, (String.length s <= n)%nat ->
  exists p, strings.ReplaceDoubleHyphen (s ++ String strings.hyphen (String c t))
            = (p ++ String strings.hyphen (strings.ReplaceDoubleHyphen (String c t)))%string.
Proof.
  intros Hc. induction n as [|n IH]; intros s Hn.
  - destruct s; [|simpl in Hn; lia]. exists EmptyString. simpl append.
    now apply Replace_single.
  - destruct s as [|a [|b s]].
    + exists EmptyString. simpl append. now apply Replace_single.
    + simpl append. destruct (Ascii.eqb a strings.hyphen) eqn:Ea.
      * apply Ascii.eqb_eq in Ea. subst a. exists EmptyString. reflexivity.
      * exists (String a EmptyString). rewrite Replace_other by exact Ea.
        simpl append. f_equal. now apply Replace_single.
    + change ((String a (String b s)) ++ String strings.hyphen (String c t))%string
        with (String a (String b (s ++ String strings.hyphen (String c t)))).
      destruct (Ascii.eqb a strings.hyphen && Ascii.eqb b strings.hyphen) eqn:Eab.
      * destruct (IH s) as [p Hp]; [simpl in Hn; lia|].
        exists (String strings.hyphen p).
        change (strings.ReplaceDoubleHyphen
                  (String a (String b (s ++ String strings.hyphen (String c t)))))
          with (if Ascii.eqb a strings.hyphen && Ascii.eqb b strings.hyphen
                then String strings.hyphen
                       (strings.ReplaceDoubleHyphen
                          (s ++ String strings.hyphen (String c t)))
                else String a
                       (strings.ReplaceDoubleHyphen
                          (String b (s ++ String strings.hyphen (String c t))))).
        rewrite Eab, Hp. reflexivity.
      * destruct (IH (String b s)) as [p Hp]; [simpl in Hn; simpl; lia|].
        exists (String a p).
        change (strings.ReplaceDoubleHyphen
                  (String a (String b (s ++ String strings.hyphen (String c t)))))
          with (if Ascii.eqb a strings.hyphen && Ascii.eqb b strings.hyphen
                then String strings.hyphen
                       (strings.ReplaceDoubleHyphen
                          (s ++ String strings.hyphen (String c t)))
                else String a
                       (strings.ReplaceDoubleHyphen
                          (String b (s ++ String strings.hyphen (String c t))))).
        rewrite Eab. simpl append in Hp. rewrite Hp. reflexivity.
Qed.

Lemma Replace_keeps_suffix (s diskId time : string) :
  diskId <> EmptyString ->
  countOther diskId = String.length diskId ->
  countOther time = String.length time ->
  exists p, strings.ReplaceDoubleHyphen (s ++ "-" ++ diskId ++ "-" ++ time)
            = (p ++ "-" ++ diskId ++ "-" ++ time)%string.
Proof.
  intros Hne Hid Htime. destruct diskId as [|c diskId]; [contradiction|].
  destruct (no_hyphen_cons _ _ Hid) as [Hc _].
  destruct (Replace_before_other_aux c (diskId ++ "-" ++ time) (String.length s) Hc s
              (le_n _)) as [p Hp].
  exists p.
  change (s ++ "-" ++ String c diskId ++ "-" ++ time)%string
    with (s ++ String strings.hyphen (String c (diskId ++ "-" ++ time)))%string.
  rewrite Hp.
  change (p ++ "-" ++ String c diskId ++ "-" ++ time)%string
    with (p ++ String strings.hyphen (String c diskId ++ "-" ++ time))%string.
  do 2 f_equal.
  change (String c (diskId ++ "-" ++ time))%string
    with (String c diskId ++ "-" ++ time)%string.
  rewrite Replace_no_hyphen_prefix by exact Hid. f_equal.
  destruct time as [|d time]; [reflexivity|].
  destruct (no_hyphen_cons _ _ Htime) as [Hd _].
  change ("-" ++ String d time)%string with (String strings.hyphen (String d time)).
  rewrite Replace_single by exact Hd. f_equal. now apply Replace_no_hyphen.
Qed.

(** X1: whatever the disk name, the name of the snapshot ends with a hyphen,
    the disk identifier, a hyphen and the time part, provided the identifier
    is not empty and neither it nor the time part holds a hyphen. *)
Theorem snapshotName_ends_with_id_and_time (diskName diskId : string) (now : Time) :
  diskId <> EmptyString ->
  countOther diskId = String.length diskId ->
  countOther (timePart now) = String.length (timePart now) ->
  exists p, snapshotName diskName diskId now
            = Some (p ++ "-" ++ diskId ++ "-" ++ timePart now)%string.
Proof.
  intros Hne Hid Htime.
  destruct (snapshotName_shape diskName diskId now) as [s [e [_ E]]].
  rewrite E.
  destruct (Replace_keeps_suffix
              (strings.Join (firstn s (strings.Split diskName)) "-" ++ "-"
               ++ strings.Join (skipn e (strings.Split diskName)) "-")
              diskId (timePart now) Hne Hid Htime) as [p Hp].
  exists p. rewrite <- Hp. f_equal. f_equal.
  now rewrite !append_assoc.
Qed.

Lemma snapshotName_ends_with_id_and_time_witness :
  exists p, snapshotName "prod-orders-eu-west-1" "1234567890123456789"
              (mkTime 2024 1 15 12 30)
            = Some (p ++ "-1234567890123456789-202401151230")%string.
Proof.
  apply (snapshotName_ends_with_id_and_time "prod-orders-eu-west-1"
           "1234567890123456789" (mkTime 2024 1 15 12 30)).
  - discriminate.
  - reflexivity.
  - reflexivity.
Defined.

Lemma len_nonneg (s : string) : 0 <= len s.
Proof. unfold len. lia. Qed.

Lemma growWindows_no_room (namesParts : list string) (steps : nat) :
  forall (namePartIndex : Z) (w : Windows),
    0 <= namePartIndex ->
    namePartIndex + Z.of_nat steps = lenOf namesParts ->
    spaceLeft w <= 0 ->
    growWindows namesParts steps namePartIndex w = Some w.
Proof.
  induction steps as [|steps IH]; intros i w Hi Hn Hw; [reflexivity|].
  cbn [growWindows].
  destruct (index_in_range namesParts i) as [a [Ea _]]; [lia|].
  destruct (index_in_range namesParts (lenOf namesParts - i - 1)) as [b [Eb _]]; [lia|].
  rewrite Ea, Eb.
  pose proof (len_nonneg a). pose proof (len_nonneg b).
  unfold growStart.
  replace (spaceLeft w >? len a) with false
    by (symmetry; rewrite Z.gtb_ltb; apply Z.ltb_ge; lia).
  unfold growEnd.
  replace (spaceLeft w >? len b) with false
    by (symmetry; rewrite Z.gtb_ltb; apply Z.ltb_ge; lia).
  apply IH; lia.
Qed.

Lemma Split_length_pos (s : string) : 1 <= lenOf (strings.Split s).
Proof.
  pose proof (Split_not_nil s). unfold lenOf.
  destruct (strings.Split s); [contradiction | simpl; lia].
Qed.

(** X2: when the disk identifier and the time part leave no room (55 bytes
    or more together), nothing of the disk name is used: the name is made of
    the identifier and the time part alone behind the separators, and starts
    with a hyphen. *)
Theorem snapshotName_without_room (diskName diskId : string) (now : Time) :
  maxSnapshotName <= len (timePart now) + len diskId ->
  snapshotName diskName diskId now
  = Some (strings.ReplaceDoubleHyphen ("--" ++ diskId ++ "-" ++ timePart now))
  /\ exists rest, snapshotName diskName diskId now = Some (String "-" rest).
Proof.
  intros Hroom.
  assert (E : snapshotName diskName diskId now
              = Some (strings.ReplaceDoubleHyphen ("--" ++ diskId ++ "-" ++ timePart now))).
  { unfold snapshotName.
    pose proof (Split_length_pos diskName) as Hpos.
    rewrite growWindows_no_room
      by (cbn [spaceLeft]; unfold lenOf, maxSnapshotName in *; lia).
    cbn [startPartEnd endPartStart].
    replace (0 >=? lenOf (strings.Split diskName)) with false
      by (symmetry; rewrite Z.geb_leb; apply Z.leb_gt; lia).
    rewrite slice_prefix by lia. rewrite slice_suffix by lia.
    replace (Z.to_nat (lenOf (strings.Split diskName)))
      with (List.length (strings.Split diskName)) by (unfold lenOf; lia).
    rewrite skipn_all. reflexivity. }
  split; [exact E|]. rewrite E.
  exists (strings.ReplaceDoubleHyphen (diskId ++ "-" ++ timePart now)).
  reflexivity.
Qed.

Lemma snapshotName_without_room_witness :
  snapshotName "prod-db" "1234567890123456789012345678901234567890123"
    (mkTime 2024 1 15 12 30)
  = Some "-1234567890123456789012345678901234567890123-202401151230".
Proof.
  destruct (snapshotName_without_room "prod-db"
              "1234567890123456789012345678901234567890123" (mkTime 2024 1 15 12 30))
    as [E _].
  - vm_compute. discriminate.
  - rewrite E. vm_compute. reflexivity.
Defined.

Lemma firstn_succ_nth_error {A} (l : list A) (n : nat) (x : A) :
  nth_error l n = Some x -> firstn (S n) l = firstn n l ++ [x].
Proof.
  revert n. induction l as [|y l IH]; intros [|n] E; simpl in E; try discriminate.
  - now injection E as ->.
  - cbn [firstn app]. f_equal. now apply IH.
Qed.

(** When the room left pays every segment twice, both windows take every
    segment. *)
Lemma growWindows_all (namesParts : list string) (steps : nat) :
  forall (namePartIndex : Z) (w : Windows),
    0 <= namePartIndex ->
    namePartIndex + Z.of_nat steps = lenOf namesParts ->
    startPartEnd w = namePartIndex ->
    endPartStart w = lenOf namesParts - namePartIndex ->
    Z.of_nat (sumLen (skipn (Z.to_nat namePartIndex) namesParts))
    + Z.of_nat (sumLen (firstn steps namesParts)) + 2 * Z.of_nat steps
    <= spaceLeft w ->
    exists w', growWindows namesParts steps namePartIndex w = Some w'
               /\ startPartEnd w' = lenOf namesParts
               /\ endPartStart w' = 0.
Proof.
  induction steps as [|steps IH]; intros i w Hi Hn Hs He Hroom.
  - exists w. simpl. split; [reflexivity | lia].
  - cbn [growWindows].
    destruct (index_in_range namesParts i) as [a [Ea Ha]]; [lia|].
    destruct (index_in_range namesParts (lenOf namesParts - i - 1)) as [b [Eb Hb]]; [lia|].
    rewrite Ea, Eb.
    replace (Z.to_nat (lenOf namesParts - i - 1)) with steps in Hb by lia.
    rewrite (skipn_nth_error _ _ _ Ha) in Hroom.
    rewrite (firstn_succ_nth_error _ _ _ Hb), sumLen_app in Hroom.
    cbn [sumLen] in Hroom.
    assert (Hstart : growStart (len a) w
                     = mkWindows (startPartEnd w + 1) (endPartStart w)
                         (spaceLeft w - (len a + 1))).
    { unfold growStart.
      replace (spaceLeft w >? len a) with true; [reflexivity|].
      symmetry. rewrite Z.gtb_ltb. apply Z.ltb_lt. unfold len. lia. }
    rewrite Hstart.
    assert (Hend : growEnd (len b)
                     (mkWindows (startPartEnd w + 1) (endPartStart w)
                        (spaceLeft w - (len a + 1)))
                   = mkWindows (startPartEnd w + 1) (endPartStart w - 1)
                       (spaceLeft w - (len a + 1) - (len b + 1))).
    { unfold growEnd. cbn [spaceLeft startPartEnd endPartStart].
      replace (spaceLeft w - (len a + 1) >? len b) with true; [reflexivity|].
      symmetry. rewrite Z.gtb_ltb. apply Z.ltb_lt. unfold len. lia. }
    rewrite Hend.
    apply IH; cbn [spaceLeft startPartEnd endPartStart]; try lia.
    replace (Z.to_nat (i + 1)) with (S (Z.to_nat i)) by lia.
    unfold len. lia.
Qed.

(** X3: a disk name short enough for the room left to pay it twice
    ([2 * (len diskName + 1)] bytes) is kept whole: the name is the disk name,
    the identifier and the time part, joined and with the double hyphens
    replaced. *)
Theorem snapshotName_keeps_short_name (diskName diskId : string) (now : Time) :
  2 * (len diskName + 1) <= maxSnapshotName - len (timePart now) - len diskId ->
  snapshotName diskName diskId now
  = Some (strings.ReplaceDoubleHyphen (diskName ++ "--" ++ diskId ++ "-" ++ timePart now)).
Proof.
  intros Hroom. unfold snapshotName.
  set (parts := strings.Split diskName).
  pose proof (Split_length_pos diskName) as Hpos. fold parts in Hpos.
  assert (Hsum : Z.of_nat (sumLen parts) + lenOf parts = len diskName + 1).
  { pose proof (Join_length parts "-") as HJ. unfold parts in HJ at 1.
    rewrite Join_Split in HJ. unfold len, lenOf in *. simpl in HJ. lia. }
  destruct (growWindows_all parts (List.length parts) 0
              (mkWindows 0 (lenOf parts)
                 (maxSnapshotName - len (timePart now) - len diskId)))
    as [w [Ew [Hs He]]]; cbn [startPartEnd endPartStart spaceLeft].
  { lia. }
  { unfold lenOf. lia. }
  { reflexivity. }
  { lia. }
  { cbn [Z.to_nat skipn]. rewrite firstn_all.
    unfold lenOf, maxSnapshotName in *. lia. }
  cbv zeta. rewrite Ew, Hs, He.
  replace (lenOf parts >=? 0) with true
    by (symmetry; rewrite Z.geb_leb; apply Z.leb_le; lia).
  rewrite slice_prefix by lia. rewrite slice_suffix by lia.
  replace (Z.to_nat (lenOf parts)) with (List.length parts) by (unfold lenOf; lia).
  rewrite firstn_all, skipn_all. unfold parts. rewrite Join_Split. reflexivity.
Qed.

Lemma snapshotName_keeps_short_name_witness :
  snapshotName "prod-db" "1234567890123456789" (mkTime 2024 1 15 12 30)
  = Some "prod-db-1234567890123456789-202401151230".
Proof.
  rewrite (snapshotName_keeps_short_name "prod-db" "1234567890123456789"
             (mkTime 2024 1 15 12 30)).
  - vm_compute. reflexivity.
  - vm_compute. discriminate.
Defined.

Lemma d0_digits (width : nat) (bound : Z) :
  forallb (fun k => Nat.eqb (countOther (fmt.d0 width (Z.of_nat k))) width)
          (seq 0 (Z.to_nat bound)) = true ->
  forall v, 0 <= v < bound -> countOther (fmt.d0 width v) = width.
Proof.
  intros Hall v Hv.
  rewrite forallb_forall in Hall.
  specialize (Hall (Z.to_nat v)).
  rewrite Z2Nat.id in Hall by lia.
  apply Nat.eqb_eq, Hall, in_seq. lia.
Qed.

(** X4: for every time of the years 0 to 9999 (month, day, hour and minute
    below 100) the time part has exactly 12 bytes, none of them a hyphen. *)
Theorem timePart_twelve_bytes (now : Time) :
  0 <= Year now < 10000 -> 0 <= Month now < 100 -> 0 <= Day now < 100 ->
  0 <= Hour now < 100 -> 0 <= Minute now < 100 ->
  String.length (timePart now) = 12%nat /\ countOther (timePart now) = 12%nat.
Proof.
  intros Hy Hm Hd Hh Hmin. unfold timePart. split.
  - rewrite !length_append.
    rewrite (d0_width 4 10000) by (vm_compute; reflexivity || assumption).
    rewrite !(d0_width 2 100) by (vm_compute; reflexivity || assumption).
    reflexivity.
  - rewrite !countOther_append.
    rewrite (d0_digits 4 10000) by (vm_compute; reflexivity || assumption).
    rewrite !(d0_digits 2 100) by (vm_compute; reflexivity || assumption).
    reflexivity.
Qed.

Lemma timePart_twelve_bytes_witness :
  String.length (timePart (mkTime 2024 1 15 12 30)) = 12%nat
  /\ countOther (timePart (mkTime 2024 1 15 12 30)) = 12%nat.
Proof.
  apply (timePart_twelve_bytes (mkTime 2024 1 15 12 30)); simpl; lia.
Defined.

(** ** The creation phase, command by command *)

Lemma schedule_in_order {A} (l : list A) : schedule [] l = l.
Proof.
  unfold schedule. induction l as [|x l IH]; [reflexivity|].
  cbn [List.length scheduleFrom hd tl]. rewrite Nat.Div0.mod_0_l.
  cbn [takeAt]. now rewrite IH.
Qed.


Section CreationRun.

Variable world : World.

Lemma createTask_sent (dryRun : bool) (task : nat * Disk) :
  (dryRun = false ->
   snd (CombinedOutput world "gcloud" (createCommandFor world task)) = None) ->
  createTask world dryRun task
  = (Log ("Creating snapshot for disk " ++ Name (snd task))
     :: (if dryRun then [] else [Command "gcloud" (createCommandFor world task)]),
     Ret (Some (createdFor world task))).
Proof.
  destruct task as [i disk]. intros Hok.
  unfold createTask, createSnapshotForDisk, createdFor, createCommandFor, nameFor in *.
  cbn [fst snd] in *.
  destruct (snapshotName_returns (Name disk) (Id disk) (clock world i)) as [name E].
  rewrite E in *. rewrite bind_log. destruct dryRun.
  - reflexivity.
  - rewrite getCommandResult_succeeded by now apply Hok. reflexivity.
Qed.

Lemma attachSnapshots_run_loop (rest : list Disk) :
  forall (pre : list Disk) (news chan : list Snapshot),
    List.length news = List.length rest ->
    forLoop (List.length rest) (List.length pre) attachSnapshot (pre ++ rest, news ++ chan)
    = (map (fun s => Log ("Created snapshot " ++ Snapshot_Name s)) news,
       Ret (pre ++ map attached (combine rest news), chan)).
Proof.
  induction rest as [|disk rest IH]; intros pre news chan Hlen.
  - destruct news; [|discriminate]. simpl. now rewrite app_nil_r.
  - destruct news as [|s news]; [discriminate|].
    cbn [List.length forLoop].
    assert (Hbody : attachSnapshot (List.length pre)
                      (pre ++ disk :: rest, (s :: news) ++ chan)
                    = ([Log ("Created snapshot " ++ Snapshot_Name s)],
                       Ret ((pre ++ [attached (disk, s)]) ++ rest, news ++ chan))).
    { unfold attachSnapshot. rewrite nth_error_middle. cbn [app receive].
      rewrite bind_ret, bind_log, setAt_middle. cbn [events outcome fst snd ret].
      now rewrite <- app_assoc. }
    rewrite (bind_returned _ _ ((pre ++ [attached (disk, s)]) ++ rest, news ++ chan))
      by now rewrite Hbody.
    rewrite Hbody. cbn [events outcome fst snd].
    replace (S (List.length pre)) with (List.length (pre ++ [attached (disk, s)]))
      by (rewrite length_app; simpl; lia).
    rewrite IH by (simpl in Hlen; lia).
    cbn [events outcome fst snd app map combine]. now rewrite <- app_assoc.
Qed.

(** The whole creation phase when no creation fails. *)
Lemma createSnapshots_run (dryRun : bool) (disks : list Disk) :
  (dryRun = false ->
   forall task, In task (indexed O disks) ->
                snd (CombinedOutput world "gcloud" (createCommandFor world task)) = None) ->
  let order := schedule (createPicks world) (indexed O disks) in
  outcome (createSnapshots world dryRun disks)
  = Ret (map attached (combine disks (map (createdFor world) order)))
  /\ commands (events (createSnapshots world dryRun disks))
     = (if dryRun then [] else map (createCommandFor world) order).
Proof.
  intros Hok order. unfold createSnapshots. rewrite bind_log.
  rewrite (runTasks_all_sent (createTask world dryRun)
             (fun task => Log ("Creating snapshot for disk " ++ Name (snd task))
                          :: (if dryRun then []
                              else [Command "gcloud" (createCommandFor world task)]))
             (createdFor world)).
  2:{ intros task Htask. apply createTask_sent. intros Hd. apply Hok; [exact Hd|].
      now apply schedule_In in Htask. }
  fold order. cbn [app].
  assert (Hlen : List.length (map (createdFor world) order) = List.length disks).
  { rewrite length_map. unfold order. rewrite schedule_length.
    clear. generalize O. induction disks as [|d l IH]; intros k; [reflexivity|].
    simpl. now rewrite IH. }
  pose proof (attachSnapshots_run_loop disks [] (map (createdFor world) order) [] Hlen)
    as Hatt.
  rewrite app_nil_r in Hatt. cbn [List.length app] in Hatt.
  unfold attachSnapshots.
  rewrite (bind_returned _ _ (map (createdFor world) order)) by reflexivity.
  rewrite (bind_returned _ _ (map attached (combine disks (map (createdFor world) order)), []))
    by now rewrite Hatt.
  rewrite Hatt, !bind_log. cbn [events outcome fst snd ret].
  split; [reflexivity|].
  cbn [commands]. rewrite !commands_app.
  rewrite (commands_logs (fun s => "Created snapshot " ++ Snapshot_Name s)%string).
  cbn [commands app]. rewrite app_nil_r.
  clear. induction order as [|t l IH]; [now destruct dryRun|].
  cbn [flat_map commands map]. destruct dryRun.
  - exact IH.
  - cbn [app commands]. now rewrite IH.
Qed.

End CreationRun.

Lemma attached_indexed (f : nat * Disk -> Snapshot) (disks : list Disk) :
  forall start,
    map attached (combine disks (map f (indexed start disks)))
    = map (fun task => withSnapshots (snd task) (f task :: Snapshots (snd task)))
          (indexed start disks).
Proof.
  induction disks as [|d disks IH]; intros start; [reflexivity|].
  cbn [indexed map combine]. now rewrite IH.
Qed.

Section CreationOrder.

Variable world : World.

(** X5: when the provider accepts every creation, the commands of the
    creation phase are, in an order that the program does not fix, one
    creation command for every disk, with the name and the zone of the disk
    and the snapshot name synthesized for it, and no other command; a dry run
    executes none.  The phase returns with one of the snapshots created in
    front of the snapshots of every disk, every snapshot created going to
    one disk; the order in which the channel delivers them is not fixed
    either, and it is not tied to the order of the commands. *)
Theorem creation_one_command_per_disk (disks : list Disk) :
  (forall task, In task (indexed O disks) ->
                snd (CombinedOutput world "gcloud" (createCommandFor world task)) = None) ->
  Permutation (commands (events (createSnapshots world false disks)))
    (map (createCommandFor world) (indexed O disks))
  /\ commands (events (createSnapshots world true disks)) = []
  /\ exists delivered,
      Permutation delivered (map (createdFor world) (indexed O disks))
      /\ outcome (createSnapshots world false disks)
         = Ret (map attached (combine disks delivered)).
Proof.
  intros Hok.
  destruct (createSnapshots_run world false disks (fun _ => Hok)) as [Hout Hcmd].
  destruct (createSnapshots_run world true disks) as [_ Hdry]; [discriminate|].
  split; [|split; [exact Hdry|]].
  - rewrite Hcmd. apply Permutation_map, schedule_Permutation.
  - exists (map (createdFor world) (schedule (createPicks world) (indexed O disks))).
    split; [apply Permutation_map, schedule_Permutation | exact Hout].
Qed.

(** X6: when the creation goroutines end in the order of the disks, every
    disk gets its own new snapshot in front of its snapshots. *)
Theorem creation_in_order_attaches_own_snapshot (dryRun : bool) (disks : list Disk) :
  createPicks world = [] ->
  (dryRun = false ->
   forall task, In task (indexed O disks) ->
                snd (CombinedOutput world "gcloud" (createCommandFor world task)) = None) ->
  outcome (createSnapshots world dryRun disks)
  = Ret (map (fun task => withSnapshots (snd task)
                            (createdFor world task :: Snapshots (snd task)))
             (indexed O disks)).
Proof.
  intros Hpicks Hok.
  destruct (createSnapshots_run world dryRun disks Hok) as [Hout _].
  rewrite Hout, Hpicks, schedule_in_order. f_equal. apply attached_indexed.
Qed.

(** X7: the snapshots are matched to the disks by the order in which the
    goroutines end, not by the disk they were made for: of two disks whose
    goroutines end in the reverse order, each gets the snapshot of the
    other. *)
Theorem creation_out_of_order_swaps_snapshots (dryRun : bool) (disk0 disk1 : Disk) :
  createPicks world = [1%nat] ->
  (dryRun = false ->
   forall task, In task (indexed O [disk0; disk1]) ->
                snd (CombinedOutput world "gcloud" (createCommandFor world task)) = None) ->
  outcome (createSnapshots world dryRun [disk0; disk1])
  = Ret [withSnapshots disk0 (createdFor world (1%nat, disk1) :: Snapshots disk0);
         withSnapshots disk1 (createdFor world (O, disk0) :: Snapshots disk1)].
Proof.
  intros Hpicks Hok.
  destruct (createSnapshots_run world dryRun [disk0; disk1] Hok) as [Hout _].
  rewrite Hout, Hpicks. reflexivity.
Qed.

End CreationOrder.

Lemma creation_one_command_per_disk_witness :
  Permutation
    (commands (events (createSnapshots (Demo.world []) false [Demo.disk; Demo.otherDisk])))
    (map (createCommandFor (Demo.world [])) (indexed O [Demo.disk; Demo.otherDisk])).
Proof.
  apply (creation_one_command_per_disk (Demo.world []) [Demo.disk; Demo.otherDisk]).
  intros task _. reflexivity.
Defined.

Lemma creation_in_order_attaches_own_snapshot_witness :
  outcome (createSnapshots (Demo.world []) true [Demo.disk; Demo.otherDisk])
  = Ret [withSnapshots Demo.disk [mkSnapshot "db-42-202401151230" ""];
         withSnapshots Demo.otherDisk
           (mkSnapshot "cache-77-202401151230" "" :: Demo.threeSnapshots)].
Proof.
  rewrite (creation_in_order_attaches_own_snapshot (Demo.world []) true
             [Demo.disk; Demo.otherDisk]).
  - vm_compute. reflexivity.
  - reflexivity.
  - discriminate.
Defined.

Lemma creation_out_of_order_swaps_snapshots_witness :
  outcome (createSnapshots Demo.reversed true [Demo.disk; Demo.otherDisk])
  = Ret [withSnapshots Demo.disk [mkSnapshot "cache-77-202401151230" ""];
         withSnapshots Demo.otherDisk
           (mkSnapshot "db-42-202401151230" "" :: Demo.threeSnapshots)].
Proof.
  rewrite (creation_out_of_order_swaps_snapshots Demo.reversed true
             Demo.disk Demo.otherDisk).
  - vm_compute. reflexivity.
  - reflexivity.
  - discriminate.
Defined.

(** ** The retention phase, command by command *)


Lemma flat_map_nil {A B} (l : list A) : flat_map (fun _ : A => @nil B) l = [].
Proof. induction l as [|a l IH]; [reflexivity | exact IH]. Qed.

Lemma In_indexed_disk {A} (l : list A) (i : nat) (x : A) :
  In (i, x) (indexed O l) -> In x l.
Proof.
  intros H. apply In_indexed in H. destruct H as [_ H].
  now apply nth_error_In in H.
Qed.

Lemma reportCleaned_all (limit : Z) (disks : list Disk) :
  reportCleaned limit (List.length disks) disks
  = (map (fun d => Log (cleanedLine limit d)) disks, Ret tt).
Proof.
  induction disks as [|d rest IH]; [reflexivity|].
  cbn [reportCleaned List.length receive]. rewrite bind_ret, bind_log, IH. reflexivity.
Qed.

Lemma indexed_length {A} (l : list A) : forall start, List.length (indexed start l) = List.length l.
Proof.
  induction l as [|x l IH]; intros start; [reflexivity|]. simpl. now rewrite IH.
Qed.


Section RetentionRun.

Variable world : World.

Lemma cleanTask_within_limit (limit : Z) (dryRun : bool) (diskIndex : nat) (disk : Disk) :
  lenOf (Snapshots disk) <= limit ->
  cleanTask world limit dryRun (diskIndex, disk) = ([], Ret (Some disk)).
Proof.
  intros Hlen. unfold cleanTask.
  replace (lenOf (Snapshots disk) - limit <=? 0) with true
    by (symmetry; apply Z.leb_le; lia).
  reflexivity.
Qed.


End RetentionRun.

(** ** Orders that the program does not fix *)









Section Retention.

Variable world : World.


(** X9: when no disk has more snapshots than the limit, the retention phase
    executes no command, also when the run is not dry, reports 0 deleted
    snapshots for every disk and returns. *)
Theorem retention_within_limit_does_nothing (limit : Z) (dryRun : bool)
    (disks : list Disk) :
  (forall disk, In disk disks -> lenOf (Snapshots disk) <= limit) ->
  outcome (deleteOldSnapshots world limit dryRun disks) = Ret tt
  /\ commands (events (deleteOldSnapshots world limit dryRun disks)) = []
  /\ forall disk, In disk disks ->
                  reportedDeleted limit disk = 0
                  /\ In (cleanedLine limit disk)
                        (logLines (events (deleteOldSnapshots world limit dryRun disks))).
Proof.
  intros Hall.
  set (order := schedule (cleanPicks world) (indexed O disks)).
  assert (Hrun : deleteOldSnapshots world limit dryRun disks
                 = (Log ("Deleting old snapshots (limit: " ++ fmt.d0 0 limit ++ ")")
                    :: map (fun d => Log (cleanedLine limit d)) (map snd order)
                    ++ [Log ""; Log "Backup complete!"], Ret tt)).
  { unfold deleteOldSnapshots. rewrite bind_log.
    rewrite (runTasks_all_sent (cleanTask world limit dryRun) (fun _ => []) snd).
    2:{ intros [i disk] Hin. apply cleanTask_within_limit, Hall.
        now apply schedule_In, In_indexed_disk in Hin. }
    fold order. rewrite flat_map_nil. cbn [app].
    rewrite (bind_returned _ _ (map snd order)) by reflexivity.
    replace (List.length disks) with (List.length (map snd order))
      by (rewrite length_map; unfold order; now rewrite schedule_length, indexed_length).
    rewrite reportCleaned_all.
    rewrite (bind_returned _ _ tt) by reflexivity.
    rewrite !bind_log. reflexivity. }
  rewrite Hrun. cbn [events outcome fst snd].
  split; [reflexivity|]. split.
  - cbn [commands]. rewrite commands_app, (commands_logs (cleanedLine limit)).
    reflexivity.
  - intros disk Hin. split.
    + unfold reportedDeleted. rewrite Max_spec. specialize (Hall disk Hin). lia.
    + cbn [logLines]. right. rewrite logLines_app, (logLines_logs (cleanedLine limit)).
      apply in_or_app. left. apply in_map.
      apply In_nth_error in Hin. destruct Hin as [i Hi].
      apply in_map_iff. exists (i, disk). split; [reflexivity|].
      apply schedule_In, In_indexed. split; [lia|]. now rewrite Nat.sub_0_r.
Qed.





End Retention.


Lemma retention_within_limit_does_nothing_witness :
  commands (events (deleteOldSnapshots (Demo.world []) 3 false
                      [Demo.disk; Demo.otherDisk])) = [].
Proof.
  apply (retention_within_limit_does_nothing (Demo.world []) 3 false
           [Demo.disk; Demo.otherDisk]).
  intros disk [<-|[<-|[]]]; vm_compute; discriminate.
Defined.



(** ** The whole run *)

Lemma outcome_bind_returned {A B} (m : M A) (k : A -> M B) (a : A) :
  outcome m = Ret a -> outcome (bind m k) = outcome (k a).
Proof. intros E. now rewrite (bind_returned _ _ _ E). Qed.

Lemma commands_bind_returned {A B} (m : M A) (k : A -> M B) (a : A) :
  outcome m = Ret a ->
  commands (events (bind m k)) = commands (events m) ++ commands (events (k a)).
Proof. intros E. rewrite (bind_returned _ _ _ E). apply commands_app. Qed.

Section WholeRun.

Variable world : World.

Lemma loadSnapshotsOfDisk_listed (disksErr : option string) (diskIndex : nat)
    (disks : list Disk) (disk : Disk) :
  nth_error disks diskIndex = Some disk ->
  snd (CombinedOutput world "gcloud" (listSnapshotsArgs disk)) = None ->
  outcome (loadSnapshotsOfDisk world disksErr diskIndex disks)
  = Ret (setAt diskIndex (loaded world disk) disks)
  /\ commands (events (loadSnapshotsOfDisk world disksErr diskIndex disks))
     = [listSnapshotsArgs disk].
Proof.
  intros Hnth Hok. unfold loadSnapshotsOfDisk. rewrite Hnth, bind_log.
  rewrite getDiskSnapshots_listed by exact Hok.
  rewrite (bind_returned _ _ (_, None)) by reflexivity. cbv beta iota.
  rewrite (bind_returned _ _ tt) by now rewrite logSnapshots_run.
  rewrite logSnapshots_run. cbn [events outcome fst snd ret].
  split; [reflexivity|].
  cbn [commands app]. rewrite commands_app.
  rewrite (commands_logs (fun s => "      - " ++ Snapshot_Name s)%string). reflexivity.
Qed.

Lemma loadSnapshotsOfDisk_failed (disksErr : option string) (diskIndex : nat)
    (disks : list Disk) (disk : Disk) (err : string) :
  nth_error disks diskIndex = Some disk ->
  snd (CombinedOutput world "gcloud" (listSnapshotsArgs disk)) = Some err ->
  outcome (loadSnapshotsOfDisk world disksErr diskIndex disks) = Exit 1.
Proof.
  intros Hnth Hko. unfold loadSnapshotsOfDisk. rewrite Hnth, bind_log.
  cbn [outcome snd].
  now rewrite (bind_exited _ _ 1 (getDiskSnapshots_failed world disk err Hko)).
Qed.

Lemma loadSnapshots_run_loop (disksErr : option string) (rest : list Disk) :
  forall pre,
    (forall disk, In disk rest ->
                  snd (CombinedOutput world "gcloud" (listSnapshotsArgs disk)) = None) ->
    outcome (forLoop (List.length rest) (List.length pre)
               (loadSnapshotsOfDisk world disksErr) (pre ++ rest))
    = Ret (pre ++ map (loaded world) rest)
    /\ commands (events (forLoop (List.length rest) (List.length pre)
                           (loadSnapshotsOfDisk world disksErr) (pre ++ rest)))
       = map listSnapshotsArgs rest.
Proof.
  induction rest as [|disk rest IH]; intros pre Hok.
  - simpl. now rewrite app_nil_r.
  - cbn [List.length forLoop].
    destruct (loadSnapshotsOfDisk_listed disksErr (List.length pre) (pre ++ disk :: rest)
                disk (nth_error_middle pre disk rest) (Hok disk (or_introl eq_refl)))
      as [Hout Hcmd].
    rewrite setAt_middle in Hout.
    rewrite (outcome_bind_returned _ _ _ Hout), (commands_bind_returned _ _ _ Hout), Hcmd.
    replace (pre ++ loaded world disk :: rest)
      with ((pre ++ [loaded world disk]) ++ rest) by (now rewrite <- app_assoc).
    replace (S (List.length pre)) with (List.length (pre ++ [loaded world disk]))
      by (rewrite length_app; simpl; lia).
    destruct (IH (pre ++ [loaded world disk])) as [Hout' Hcmd'].
    { intros d Hd. apply Hok. now right. }
    rewrite Hout', Hcmd'. cbn [map app]. now rewrite <- app_assoc.
Qed.

Lemma loadSnapshots_exits_loop (disksErr : option string) (rest : list Disk) :
  forall pre,
    (exists disk err, In disk rest
                      /\ snd (CombinedOutput world "gcloud" (listSnapshotsArgs disk))
                         = Some err) ->
    outcome (forLoop (List.length rest) (List.length pre)
               (loadSnapshotsOfDisk world disksErr) (pre ++ rest)) = Exit 1.
Proof.
  induction rest as [|disk rest IH]; intros pre [bad [err [Hin Herr]]].
  - contradiction.
  - cbn [List.length forLoop].
    destruct (snd (CombinedOutput world "gcloud" (listSnapshotsArgs disk)))
      as [e|] eqn:E.
    + now rewrite (bind_exited _ _ 1
                     (loadSnapshotsOfDisk_failed disksErr _ _ disk e
                        (nth_error_middle pre disk rest) E)).
    + destruct (loadSnapshotsOfDisk_listed disksErr (List.length pre)
                  (pre ++ disk :: rest) disk (nth_error_middle pre disk rest) E)
        as [Hout _].
      rewrite setAt_middle in Hout. rewrite (outcome_bind_returned _ _ _ Hout).
      replace (pre ++ loaded world disk :: rest)
        with ((pre ++ [loaded world disk]) ++ rest) by (now rewrite <- app_assoc).
      replace (S (List.length pre)) with (List.length (pre ++ [loaded world disk]))
        by (rewrite length_app; simpl; lia).
      apply IH. destruct Hin as [->|Hin]; [rewrite E in Herr; discriminate|].
      now exists bad, err.
Qed.

(** X12: when every snapshot listing succeeds, the inventory executes one
    listing command for every disk, in the order of the disks, asking for
    the snapshots of the disk's identifier, newest first; it returns the
    disks in the same order, each with the snapshots decoded from its
    listing in place of the ones it had. *)
Theorem inventory_lists_every_disk (disksErr : option string) (disks : list Disk) :
  (forall disk, In disk disks ->
                snd (CombinedOutput world "gcloud" (listSnapshotsArgs disk)) = None) ->
  outcome (loadSnapshots world disksErr disks) = Ret (map (loaded world) disks)
  /\ commands (events (loadSnapshots world disksErr disks))
     = map (fun disk => ["beta"; "compute"; "snapshots"; "list"; "--sort-by";
                         "~creationTimestamp"; "--filter";
                         "sourceDiskId = " ++ Id disk; "--format"; "json"]%string) disks.
Proof.
  intros Hok. exact (loadSnapshots_run_loop disksErr disks [] Hok).
Qed.

(** X13: when the disk listing fails, the process exits with status 1 after
    logging the output of the command and its error; the listing is the only
    command of the run. *)
Theorem disk_listing_failure_is_fatal (filter : string) (limit : Z) (dryRun : bool)
    (err : string) :
  snd (CombinedOutput world "gcloud" (listDisksArgs filter)) = Some err ->
  outcome (main world filter limit dryRun) = Exit 1
  /\ commands (events (main world filter limit dryRun)) = [listDisksArgs filter]
  /\ exists before,
      logLines (events (main world filter limit dryRun))
      = before ++ [fst (CombinedOutput world "gcloud" (listDisksArgs filter)); err].
Proof.
  intros Hko.
  assert (Hget : getDisksToSnapshot world filter
                 = ([Command "gcloud" (listDisksArgs filter);
                     Log (fst (CombinedOutput world "gcloud" (listDisksArgs filter)));
                     Log err], Exit 1)).
  { unfold getDisksToSnapshot. now rewrite (getCommandResult_failed world _ _ err Hko). }
  unfold main. rewrite bind_log. destruct dryRun.
  - rewrite (bind_returned _ _ tt) by reflexivity. rewrite bind_log, Hget.
    split; [reflexivity|]. split; [reflexivity|].
    eexists [_; _; _; _]. reflexivity.
  - rewrite bind_ret, bind_log, Hget.
    split; [reflexivity|]. split; [reflexivity|].
    eexists [_; _]. reflexivity.
Qed.

(** X14: when the snapshot listing of one of the disks fails, the process
    exits with status 1 during the inventory: the run has executed no
    command that creates or deletes a snapshot. *)
Theorem snapshot_listing_failure_is_fatal (filter : string) (limit : Z) (dryRun : bool)
    (disks : list Disk) (disk : Disk) (err : string) :
  outcome (getDisksToSnapshot world filter) = Ret (disks, None) ->
  In disk disks ->
  snd (CombinedOutput world "gcloud" (listSnapshotsArgs disk)) = Some err ->
  outcome (main world filter limit dryRun) = Exit 1
  /\ Forall (fun e => isMutating e = false) (events (main world filter limit dryRun)).
Proof.
  intros Hdisks Hin Hko.
  assert (Hexit : outcome (loadSnapshots world None disks) = Exit 1).
  { apply (loadSnapshots_exits_loop None disks []). now exists disk, err. }
  assert (Hnonempty : (lenOf disks =? 0) = false) by now destruct disks.
  split.
  - unfold main. rewrite bind_log. cbn [outcome snd].
    rewrite (outcome_bind_returned _ _ tt) by now destruct dryRun.
    rewrite bind_log. cbn [outcome snd].
    rewrite (outcome_bind_returned _ _ _ Hdisks). cbn iota beta.
    rewrite Hnonempty, bind_log. cbn [outcome snd].
    now rewrite (bind_exited _ _ 1 Hexit).
  - unfold main.
    apply bind_Forall; [now apply log_Print_Forall | intros _ _].
    apply bind_Forall.
    { destruct dryRun; [|constructor].
      apply bind_Forall; [now apply log_Print_Forall | intros _ _].
      now apply log_Print_Forall. }
    intros _ _.
    apply bind_Forall; [now apply log_Print_Forall | intros _ _].
    apply bind_Forall; [now apply getDisksToSnapshot_Forall|].
    intros [ds derr] Hds. rewrite Hdisks in Hds. injection Hds as <- <-.
    rewrite Hnonempty.
    apply bind_Forall; [now apply log_Print_Forall | intros _ _].
    apply bind_Forall; [now apply loadSnapshots_Forall|].
    intros ds Hds. rewrite Hexit in Hds. discriminate.
Qed.

End WholeRun.

Section SuccessfulRun.

Variable world : World.

Hypothesis commands_succeed :
  forall args, snd (CombinedOutput world "gcloud" args) = None.



End SuccessfulRun.

Lemma inventory_lists_every_disk_witness :
  outcome (loadSnapshots (Demo.world Demo.threeSnapshots) None [Demo.disk])
  = Ret [withSnapshots Demo.disk Demo.threeSnapshots].
Proof.
  destruct (inventory_lists_every_disk (Demo.world Demo.threeSnapshots) None [Demo.disk])
    as [H _].
  - intros disk _. reflexivity.
  - rewrite H. vm_compute. reflexivity.
Defined.

Lemma disk_listing_failure_is_fatal_witness :
  outcome (main Demo.unreachable "name = db" 7 false) = Exit 1
  /\ commands (events (main Demo.unreachable "name = db" 7 false))
     = [listDisksArgs "name = db"].
Proof.
  destruct (disk_listing_failure_is_fatal Demo.unreachable "name = db" 7 false
              "exit status 1") as [Hout [Hcmd _]].
  - reflexivity.
  - split; [exact Hout | exact Hcmd].
Defined.

Lemma snapshot_listing_failure_is_fatal_witness :
  outcome (main Demo.failingListing "name = db" 7 false) = Exit 1.
Proof.
  apply (snapshot_listing_failure_is_fatal Demo.failingListing "name = db" 7 false
           [Demo.disk] Demo.disk "exit status 1").
  - vm_compute. reflexivity.
  - now left.
  - reflexivity.
Defined.

